(** * The events route of the concert calendar

    A shallow embedding of the route handler [GET] of the events API
    (query parameters [month], [genres], [venues] over the in-memory
    list [mockEvents]) and of the slug lookup of the event page,
    together with the parts of the JavaScript run time the handler
    leans on: [String.prototype.split], [Number] applied to a string,
    binary64 subtraction and strict equality, and the [Date] getters
    [getFullYear] and [getMonth].

    Strings are strings of code units below 256.  A Number is a
    binary64 value given by its integral significand and exponent;
    rounding is to nearest, ties to even, and is compared on samples
    with the binary64 specification of the standard library.  The time
    zone of the host is a parameter: the offset of local time at each
    instant.

    The model comes first, then the notions the properties are stated
    with and a sample store, then the properties. *)

From Stdlib Require Import ZArith List String Ascii Bool Lia.
From Stdlib Require SpecFloat.
Import ListNotations.

Local Open Scope string_scope.
Local Open Scope Z_scope.

(** ** JavaScript Number values *)

Module JS.

(** A Number: NaN, an infinity, or the finite value [m * 2^e].  The
    two zeros are not told apart: the handler only ever compares
    Numbers with [===], under which they are equal. *)
Inductive JSNumber : Type :=
| NaN
| Infinity (negative : bool)
| Finite (m e : Z).

(** A value as produced by destructuring an array of Numbers: the
    element, or [undefined] past the end. *)
Inductive JSValue : Type :=
| undefined
| number (n : JSNumber).

(** Smallest exponent of a binary64 significand taken as an integer
    (subnormals), and the largest one. *)
Definition emin : Z := -1074.
Definition emax : Z := 971.

(** [n / d] rounded to the nearest integer, ties to even ([0 < d]). *)
Definition rne (n d : Z) : Z :=
  let q := n / d in
  let r := n mod d in
  if 2 * r <? d then q
  else if d <? 2 * r then q + 1
  else if Z.even q then q else q + 1.

(** Rounding to binary64, round-to-nearest-even, of the non-negative
    real [(N / d) * 2^emin], negated when [negative] is set.  The
    exponent of the result is fixed by the position of the leading bit
    of [N / d]; a significand rounded up to [2^53] moves to the next
    binade, and past the largest exponent the result is an infinity. *)
Definition round_scaled (negative : bool) (N d : Z) : JSNumber :=
  let E := Z.max (Z.log2 (N / d) - 52) 0 in
  let r := rne N (d * 2 ^ E) in
  let m := if r =? 2 ^ 53 then 2 ^ 52 else r in
  let E' := if r =? 2 ^ 53 then E + 1 else E in
  if emax - emin <? E' then Infinity negative
  else Finite (if negative then - m else m) (E' + emin).

(** The Number nearest to the real [n / d] ([0 <= n], [0 < d]). *)
Definition round_ratio (negative : bool) (n d : Z) : JSNumber :=
  round_scaled negative (n * 2 ^ (- emin)) d.

(** The Number value for a mathematical integer. *)
Definition of_Z (z : Z) : JSNumber :=
  round_ratio (z <? 0) (Z.abs z) 1.

(** [x - y] for Numbers (Number::subtract): the exact difference of
    two finite values, rounded once. *)
Definition sub (x y : JSNumber) : JSNumber :=
  match x, y with
  | NaN, _ | _, NaN => NaN
  | Infinity s, Infinity s' => if Bool.eqb s s' then NaN else Infinity s
  | Infinity s, Finite _ _ => Infinity s
  | Finite _ _, Infinity s => Infinity (negb s)
  | Finite m1 e1, Finite m2 e2 =>
      let e := Z.min e1 e2 in
      let D := m1 * 2 ^ (e1 - e) - m2 * 2 ^ (e2 - e) in
      round_scaled (D <? 0) (Z.abs D * 2 ^ (e - emin)) 1
  end.

(** [x === y] for Numbers (Number::equal): NaN equals nothing, finite
    values are compared by value. *)
Definition strict_eq (x y : JSNumber) : bool :=
  match x, y with
  | Finite m1 e1, Finite m2 e2 =>
      let e := Z.min e1 e2 in
      m1 * 2 ^ (e1 - e) =? m2 * 2 ^ (e2 - e)
  | Infinity s, Infinity s' => Bool.eqb s s'
  | _, _ => false
  end.

(** [x === v] for a Number [x] and a value [v]: [undefined] is of
    another type, and equals no Number. *)
Definition strict_equals (x : JSNumber) (v : JSValue) : bool :=
  match v with
  | undefined => false
  | number y => strict_eq x y
  end.

(** ToNumber of a destructured element: [undefined] becomes NaN. *)
Definition ToNumber (v : JSValue) : JSNumber :=
  match v with
  | undefined => NaN
  | number n => n
  end.

(** ** Number applied to a string (StringToNumber) *)

(** StrWhiteSpaceChar, for code units below 256: TAB, LF, VT, FF, CR,
    SP and NBSP. *)
Definition is_white (c : ascii) : bool :=
  let n := Z.of_N (N_of_ascii c) in
  (n =? 9) || (n =? 10) || (n =? 11) || (n =? 12) || (n =? 13)
  || (n =? 32) || (n =? 160).

Fixpoint trim_start (s : string) : string :=
  match s with
  | String c s' => if is_white c then trim_start s' else s
  | EmptyString => EmptyString
  end.

Fixpoint trim_end (s : string) : string :=
  match s with
  | EmptyString => EmptyString
  | String c s' =>
      match trim_end s' with
      | EmptyString => if is_white c then EmptyString else String c EmptyString
      | t => String c t
      end
  end.

Definition trim (s : string) : string := trim_end (trim_start s).

(** The value of a digit in the given radix, when it is one. *)
Definition digit_of (radix : Z) (c : ascii) : option Z :=
  let n := Z.of_N (N_of_ascii c) in
  let v :=
    if (48 <=? n) && (n <=? 57) then n - 48
    else if (97 <=? n) && (n <=? 102) then n - 87
    else if (65 <=? n) && (n <=? 70) then n - 55
    else radix in
  if v <? radix then Some v else None.

(** Reads the longest run of digits at the front of [s]: the value
    accumulated onto [acc], the number of digits read, and the rest. *)
Fixpoint read_digits (radix : Z) (s : string) (acc : Z) (count : Z)
  : Z * Z * string :=
  match s with
  | EmptyString => (acc, count, s)
  | String c s' =>
      match digit_of radix c with
      | Some v => read_digits radix s' (acc * radix + v) (count + 1)
      | None => (acc, count, s)
      end
  end.

(** A parsed StrUnsignedDecimalLiteral: [Infinity], or the decimal
    [digits * 10^exponent]. *)
Inductive Literal : Type :=
| LInfinity
| LDecimal (digits exponent : Z).

(** ExponentPart_opt, then the end of the literal. *)
Definition parse_exponent (s : string) (digits k : Z) : option Literal :=
  match s with
  | EmptyString => Some (LDecimal digits k)
  | String c s' =>
      if (Ascii.eqb c "e" || Ascii.eqb c "E")%bool then
        let '(negative, s'') :=
          match s' with
          | String "+" t => (false, t)
          | String "-" t => (true, t)
          | _ => (false, s')
          end in
        match read_digits 10 s'' 0 0 with
        | (x, count, EmptyString) =>
            if 0 <? count
            then Some (LDecimal digits (k + (if negative then - x else x)))
            else None
        | _ => None
        end
      else None
  end.

(** StrUnsignedDecimalLiteral. *)
Definition parse_unsigned (s : string) : option Literal :=
  if String.eqb s "Infinity" then Some LInfinity
  else
    match read_digits 10 s 0 0 with
    | (int_part, int_count, String "." rest) =>
        match read_digits 10 rest int_part 0 with
        | (digits, frac_count, rest') =>
            if int_count + frac_count =? 0 then None
            else parse_exponent rest' digits (- frac_count)
        end
    | (int_part, int_count, rest) =>
        if int_count =? 0 then None
        else parse_exponent rest int_part 0
    end.

(** The Number for a signed literal. *)
Definition literal_value (negative : bool) (l : Literal) : JSNumber :=
  match l with
  | LInfinity => Infinity negative
  | LDecimal digits k =>
      if 0 <=? k then round_ratio negative (digits * 10 ^ k) 1
      else round_ratio negative digits (10 ^ (- k))
  end.

(** NonDecimalIntegerLiteral after its two-character prefix. *)
Definition parse_radix (radix : Z) (s : string) : JSNumber :=
  match read_digits radix s 0 0 with
  | (v, count, EmptyString) =>
      if 0 <? count then round_ratio false v 1 else NaN
  | _ => NaN
  end.

(** [Number(s)] for a string [s]: white space is trimmed, the empty
    string is [0], anything that is not a StrNumericLiteral is NaN. *)
Definition Number (s : string) : JSNumber :=
  match trim s with
  | EmptyString => of_Z 0
  | String "0" (String "x" t) | String "0" (String "X" t) => parse_radix 16 t
  | String "0" (String "o" t) | String "0" (String "O" t) => parse_radix 8 t
  | String "0" (String "b" t) | String "0" (String "B" t) => parse_radix 2 t
  | String "+" t =>
      match parse_unsigned t with
      | Some l => literal_value false l
      | None => NaN
      end
  | String "-" t =>
      match parse_unsigned t with
      | Some l => literal_value true l
      | None => NaN
      end
  | t =>
      match parse_unsigned t with
      | Some l => literal_value false l
      | None => NaN
      end
  end.

(** ** Strings and arrays *)

(** [s.split(sep)] for a one-character separator: the pieces between
    the occurrences of [sep]; never empty, the split of the empty
    string is the array holding the empty string. *)
Fixpoint split (sep : ascii) (s : string) : list string :=
  match s with
  | EmptyString => [EmptyString]
  | String c s' =>
      if Ascii.eqb c sep then EmptyString :: split sep s'
      else
        match split sep s' with
        | piece :: pieces => String c piece :: pieces
        | [] => [String c EmptyString]
        end
  end.

(** [Boolean(s)] for a string: the empty string is the only falsy one. *)
Definition Boolean (s : string) : bool :=
  match s with
  | EmptyString => false
  | String _ _ => true
  end.

(** [array.includes(s)] over strings. *)
Definition includes (array : list string) (s : string) : bool :=
  existsb (String.eqb s) array.

(** [array.some(p)]. *)
Definition some {A : Type} (p : A -> bool) (array : list A) : bool :=
  existsb p array.

(** The element of an array at an index, as destructuring reads it. *)
Definition element (array : list JSNumber) (i : nat) : JSValue :=
  match nth_error array i with
  | Some n => number n
  | None => undefined
  end.

(** The integer a Number is, when it is one. *)
Definition to_integer (x : JSNumber) : option Z :=
  match x with
  | Finite m e =>
      if 0 <=? e then Some (m * 2 ^ e)
      else if m mod 2 ^ (- e) =? 0 then Some (m / 2 ^ (- e))
      else None
  | _ => None
  end.

(** [array[n]] for a Number [n]: the element when [n] is an index of
    the array, [undefined] (here [None]) otherwise. *)
Definition index {A : Type} (array : list A) (n : JSNumber) : option A :=
  match to_integer n with
  | Some k => if 0 <=? k then nth_error array (Z.to_nat k) else None
  | None => None
  end.

(** ** Date *)

Definition msPerDay : Z := 86400000.

Definition Day (t : Z) : Z := t / msPerDay.

Definition DaysInYear (y : Z) : Z :=
  if negb (y mod 4 =? 0) then 365
  else if negb (y mod 100 =? 0) then 366
  else if negb (y mod 400 =? 0) then 365
  else 366.

Definition DayFromYear (y : Z) : Z :=
  365 * (y - 1970) + (y - 1969) / 4 - (y - 1901) / 100 + (y - 1601) / 400.

Definition TimeFromYear (y : Z) : Z := msPerDay * DayFromYear y.

(** The largest year whose first instant is not after [t]: a first
    guess from the mean length of a year, off by at most one. *)
Definition YearFromTime (t : Z) : Z :=
  let y := 1970 + (Day t * 400) / 146097 in
  if Day t <? DayFromYear y then y - 1
  else if DayFromYear (y + 1) <=? Day t then y + 1
  else y.

Definition InLeapYear (t : Z) : Z :=
  if DaysInYear (YearFromTime t) =? 366 then 1 else 0.

Definition DayWithinYear (t : Z) : Z :=
  Day t - DayFromYear (YearFromTime t).

Definition MonthFromTime (t : Z) : Z :=
  let d := DayWithinYear t in
  let leap := InLeapYear t in
  if d <? 31 then 0
  else if d <? 59 + leap then 1
  else if d <? 90 + leap then 2
  else if d <? 120 + leap then 3
  else if d <? 151 + leap then 4
  else if d <? 181 + leap then 5
  else if d <? 212 + leap then 6
  else if d <? 243 + leap then 7
  else if d <? 273 + leap then 8
  else if d <? 304 + leap then 9
  else if d <? 334 + leap then 10
  else 11.

Definition DateFromTime (t : Z) : Z :=
  let d := DayWithinYear t in
  let leap := InLeapYear t in
  match MonthFromTime t with
  | 0 => d + 1
  | 1 => d - 30
  | 2 => d - 58 - leap
  | 3 => d - 89 - leap
  | 4 => d - 119 - leap
  | 5 => d - 150 - leap
  | 6 => d - 180 - leap
  | 7 => d - 211 - leap
  | 8 => d - 242 - leap
  | 9 => d - 272 - leap
  | 10 => d - 303 - leap
  | _ => d - 333 - leap
  end.

(** A Date object: its time value in milliseconds since the epoch, or
    [None] for the invalid date (time value NaN). *)
Definition Date : Type := option Z.

(** [new Date(v)] for an instant [v] in milliseconds: TimeClip. *)
Definition new_Date (v : Z) : Date :=
  if Z.abs v <=? 8640000000000000 then Some v else None.

Section LocalTime.

(** The offset of local time from UTC, in milliseconds, at a UTC
    instant: the time zone of the host that runs the handler. *)
Variable LocalTZA : Z -> Z.

Definition LocalTime (t : Z) : Z := t + LocalTZA t.

Definition getFullYear (date : Date) : JSNumber :=
  match date with
  | None => NaN
  | Some t => of_Z (YearFromTime (LocalTime t))
  end.

Definition getMonth (date : Date) : JSNumber :=
  match date with
  | None => NaN
  | Some t => of_Z (MonthFromTime (LocalTime t))
  end.

Definition getDate (date : Date) : JSNumber :=
  match date with
  | None => NaN
  | Some t => of_Z (DateFromTime (LocalTime t))
  end.

End LocalTime.

End JS.

(** ** Data model *)

(** Modelled from the spec: the type declarations of the entities
    (lib/types) are not among the sources.  A venue and a genre carry a
    slug and display data; an event carries its identity, its span as
    two instants (milliseconds since the epoch), its venue and its
    genres, resolved. *)
Module Venue.
Record t : Type := {
  id : string;
  slug : string;
  name : string;
  address : string;
  city : string
}.
End Venue.

Module Genre.
Record t : Type := {
  id : string;
  slug : string;
  name : string;
  color : string
}.
End Genre.

Module Event.
Record t : Type := {
  id : string;
  slug : string;
  title : string;
  startTime : Z;
  endTime : Z;
  venue : Venue.t;
  genres : list Genre.t
}.
End Event.

(** ** Requests and responses *)

(** The query string of a request, decoded: name and value pairs in
    the order they occur. *)
Record NextRequest : Type := {
  searchParams : list (string * string)
}.

(** [searchParams.get(name)]: the first value given for [name], or
    null. *)
Fixpoint get (params : list (string * string)) (name : string)
  : option string :=
  match params with
  | [] => None
  | (k, v) :: rest => if String.eqb k name then Some v else get rest name
  end.

Record NextResponse : Type := {
  status : Z;
  body : list Event.t
}.

(** [NextResponse.json(events)]: a 200 response with the events as its
    body. *)
Definition NextResponse_json (events : list Event.t) : NextResponse :=
  {| status := 200; body := events |}.

(** ** The events route *)

Section Route.

(** The event store, and the time zone of the host. *)
Variable mockEvents : list Event.t.
Variable LocalTZA : Z -> Z.

(** The parsed [genres] or [venues] parameter:
    [searchParams.get(name)?.split(',').filter(Boolean) || []]. *)
Definition slugs_of (value : option string) : list string :=
  match value with
  | Some s => filter JS.Boolean (JS.split "," s)
  | None => []
  end.

(** The callback of the month filter, for the two Numbers taken from
    the token. *)
Definition in_month (yearNum monthNum : JS.JSValue) (event : Event.t) : bool :=
  let start := JS.new_Date (Event.startTime event) in
  JS.strict_equals (JS.getFullYear LocalTZA start) yearNum
  && JS.strict_equals (JS.getMonth LocalTZA start)
       (JS.number (JS.sub (JS.ToNumber monthNum) (JS.of_Z 1))).

Definition GET (request : NextRequest) : NextResponse :=
  let month := get (searchParams request) "month" in
  let genres := slugs_of (get (searchParams request) "genres") in
  let venues := slugs_of (get (searchParams request) "venues") in
  let filteredEvents := mockEvents in
  let filteredEvents :=
    match month with
    | Some month =>
        if JS.Boolean month then
          let parts := map JS.Number (JS.split "-" month) in
          let yearNum := JS.element parts 0 in
          let monthNum := JS.element parts 1 in
          filter (in_month yearNum monthNum) filteredEvents
        else filteredEvents
    | None => filteredEvents
    end in
  let filteredEvents :=
    if (0 <? List.length genres)%nat then
      filter (fun event =>
                JS.some (fun genre => JS.includes genres (Genre.slug genre))
                        (Event.genres event))
             filteredEvents
    else filteredEvents in
  let filteredEvents :=
    if (0 <? List.length venues)%nat then
      filter (fun event => JS.includes venues (Venue.slug (Event.venue event)))
             filteredEvents
    else filteredEvents in
  NextResponse_json filteredEvents.

End Route.

(** ** The event page *)

Section Page.

Variable mockEvents : list Event.t.

(** Modelled from the spec: [getEventBySlug] is exported by
    lib/data/mockEvents, which is not among the sources.  Given a slug
    it returns the matching event, or an explicit absence. *)
Definition getEventBySlug (s : string) : option Event.t :=
  find (fun event => String.eqb (Event.slug event) s) mockEvents.

(** What the page comes to: the not-found page, or the page of an
    event. *)
Inductive Page : Type :=
| notFound
| rendered (event : Event.t).

Definition EventPage (s : string) : Page :=
  match getEventBySlug s with
  | None => notFound
  | Some event => rendered event
  end.

End Page.

(** ** The home page *)

Definition SWEDISH_MONTHS : list string :=
  ["JANUARI"; "FEBRUARI"; "MARS"; "APRIL"; "MAJ"; "JUNI";
   "JULI"; "AUGUSTI"; "SEPTEMBER"; "OKTOBER"; "NOVEMBER"; "DECEMBER"].

(** The card of an event in the list of the home page: its key, the
    target of its link, the day of the month, the title and the name of
    the venue.  The times of day, which the locale formats, and the
    optional price line are left out. *)
Record Card : Type := {
  card_key : string;
  card_href : string;
  card_day : JS.JSNumber;
  card_title : string;
  card_venue : string
}.

(** What the home page shows: the heading (the name of the month, or
    [undefined], and the year), the count, and the cards. *)
Record HomePage : Type := {
  currentMonth : option string;
  currentYear : JS.JSNumber;
  count : nat;
  cards : list Card
}.

Section Home.

Variable mockEvents : list Event.t.
Variable LocalTZA : Z -> Z.

(** The events of the current month; [now] is the time value of
    [new Date()], the instant the page is rendered at. *)
Definition currentMonthEvents (now : Z) : list Event.t :=
  let now := Some now in
  filter (fun event =>
            let start := JS.new_Date (Event.startTime event) in
            JS.strict_eq (JS.getMonth LocalTZA start) (JS.getMonth LocalTZA now)
            && JS.strict_eq (JS.getFullYear LocalTZA start)
                            (JS.getFullYear LocalTZA now))
         mockEvents.

Definition card_of (event : Event.t) : Card :=
  let start := JS.new_Date (Event.startTime event) in
  {| card_key := Event.id event;
     card_href := "/event/" ++ Event.slug event;
     card_day := JS.getDate LocalTZA start;
     card_title := Event.title event;
     card_venue := Venue.name (Event.venue event) |}.

Definition Home (now : Z) : HomePage :=
  {| currentMonth := JS.index SWEDISH_MONTHS (JS.getMonth LocalTZA (Some now));
     currentYear := JS.getFullYear LocalTZA (Some now);
     count := List.length (currentMonthEvents now);
     cards := map card_of (currentMonthEvents now) |}.

End Home.

(** ** Notions the properties are stated with *)

(** A request carrying the given parameters, each present or not. *)
Definition param (name : string) (value : option string)
  : list (string * string) :=
  match value with
  | Some v => [(name, v)]
  | None => []
  end.

Definition query (month genres venues : option string) : NextRequest :=
  {| searchParams :=
       param "month" month ++ param "genres" genres ++ param "venues" venues |}.

(** A set of slugs as the value of a query parameter: the slugs,
    separated by commas. *)
Definition comma_separated (slugs : list string) : string :=
  String.concat "," slugs.

(** A slug that the comma-separated parameters can carry: not empty,
    and free of commas. *)
Fixpoint comma_free (s : string) : bool :=
  match s with
  | EmptyString => true
  | String c s' => negb (Ascii.eqb c ",") && comma_free s'
  end.

Definition slug_ok (s : string) : bool := JS.Boolean s && comma_free s.

(** A string in which a character does not occur. *)
Fixpoint lacks (sep : ascii) (s : string) : bool :=
  match s with
  | EmptyString => true
  | String c s' => negb (Ascii.eqb c sep) && lacks sep s'
  end.

(** A parameter value made of commas only (the empty string among
    them). *)
Fixpoint only_commas (s : string) : bool :=
  match s with
  | EmptyString => true
  | String c s' => Ascii.eqb c "," && only_commas s'
  end.

Definition is_digit (c : ascii) : bool :=
  let n := Z.of_N (N_of_ascii c) in (48 <=? n) && (n <=? 57).

Definition digit_value (c : ascii) : Z := Z.of_N (N_of_ascii c) - 48.

(** The year and the month a token of the form YYYY-MM names. *)
Definition token_year (M : string) : Z :=
  match M with
  | String y1 (String y2 (String y3 (String y4 _))) =>
      1000 * digit_value y1 + 100 * digit_value y2
      + 10 * digit_value y3 + digit_value y4
  | _ => 0
  end.

Definition token_month (M : string) : Z :=
  match M with
  | String _ (String _ (String _ (String _ (String _
      (String m1 (String m2 _)))))) =>
      10 * digit_value m1 + digit_value m2
  | _ => 0
  end.

(** A well-formed month token: four digits, a hyphen, two digits, the
    month between 1 and 12. *)
Definition well_formed_month_token (M : string) : bool :=
  match M with
  | String y1 (String y2 (String y3 (String y4 (String sep
      (String m1 (String m2 EmptyString)))))) =>
      is_digit y1 && is_digit y2 && is_digit y3 && is_digit y4
      && Ascii.eqb sep "-" && is_digit m1 && is_digit m2
      && (1 <=? token_month M) && (token_month M <=? 12)
  | _ => false
  end.

(** The calendar year and month (1 to 12) of an instant in the time
    zone with the given offsets; none for an instant outside the range
    a Date can hold. *)
Definition calendar_month (LocalTZA : Z -> Z) (instant : Z) : option (Z * Z) :=
  if Z.abs instant <=? 8640000000000000 then
    Some (JS.YearFromTime (JS.LocalTime LocalTZA instant),
          JS.MonthFromTime (JS.LocalTime LocalTZA instant) + 1)
  else None.

Definition is_NaN (n : JS.JSNumber) : bool :=
  match n with
  | JS.NaN => true
  | _ => false
  end.

(** The two Numbers the handler takes from a month token. *)
Definition yearNum_of (month : string) : JS.JSValue :=
  JS.element (map JS.Number (JS.split "-" month)) 0.

Definition monthNum_of (month : string) : JS.JSValue :=
  JS.element (map JS.Number (JS.split "-" month)) 1.

(** A malformed month token, as the handler reads it: a non-empty
    token whose year or month is not a number (the month may be missing
    altogether), or whose month is none of 1 to 12. *)
Definition malformed_month (month : string) : bool :=
  JS.Boolean month
  && (is_NaN (JS.ToNumber (yearNum_of month))
      || is_NaN (JS.ToNumber (monthNum_of month))
      || negb (existsb
                 (fun k => JS.strict_eq (JS.ToNumber (monthNum_of month))
                                        (JS.of_Z k))
                 [1; 2; 3; 4; 5; 6; 7; 8; 9; 10; 11; 12])).

(** The three tests of the handler, each on the raw value of its
    parameter: what an event has to pass to stay in the result. *)
Definition month_matches (LocalTZA : Z -> Z) (month : option string)
  (event : Event.t) : bool :=
  match month with
  | Some token =>
      if JS.Boolean token
      then in_month LocalTZA (yearNum_of token) (monthNum_of token) event
      else true
  | None => true
  end.

Definition genres_match (genres : list string) (event : Event.t) : bool :=
  if (0 <? List.length genres)%nat
  then JS.some (fun genre => JS.includes genres (Genre.slug genre))
               (Event.genres event)
  else true.

Definition venues_match (venues : list string) (event : Event.t) : bool :=
  if (0 <? List.length venues)%nat
  then JS.includes venues (Venue.slug (Event.venue event))
  else true.

(** A significand and exponent as binary64 stores them: in range, and
    with the leading bit in place unless the value is subnormal. *)
Definition canonical (m e : Z) : Prop :=
  JS.emin <= e <= JS.emax /\ Z.abs m < 2 ^ 53
  /\ (e = JS.emin \/ 2 ^ 52 <= Z.abs m).

Definition canonical_number (x : JS.JSNumber) : Prop :=
  match x with
  | JS.Finite m e => canonical m e
  | _ => True
  end.

Definition signed (negative : bool) (m : Z) : Z :=
  if negative then - m else m.

(** A Number as a value of the binary64 specification of the standard
    library ([SpecFloat], precision 53, exponent bound 1024), the two
    zeros identified; the quotient and the difference that
    specification computes. *)
Definition to_spec_float (x : JS.JSNumber) : SpecFloat.spec_float :=
  match x with
  | JS.NaN => SpecFloat.S754_nan
  | JS.Infinity s => SpecFloat.S754_infinity s
  | JS.Finite m e =>
      if m =? 0 then SpecFloat.S754_zero false
      else SpecFloat.S754_finite (m <? 0) (Z.to_pos (Z.abs m)) e
  end.

Definition unsigned_zero (x : SpecFloat.spec_float) : SpecFloat.spec_float :=
  match x with
  | SpecFloat.S754_zero _ => SpecFloat.S754_zero false
  | _ => x
  end.

Definition spec_float_eqb (x y : SpecFloat.spec_float) : bool :=
  match x, y with
  | SpecFloat.S754_zero _, SpecFloat.S754_zero _ => true
  | SpecFloat.S754_nan, SpecFloat.S754_nan => true
  | SpecFloat.S754_infinity s, SpecFloat.S754_infinity s' => Bool.eqb s s'
  | SpecFloat.S754_finite s m e, SpecFloat.S754_finite s' m' e' =>
      Bool.eqb s s' && Pos.eqb m m' && (e =? e')
  | _, _ => false
  end.

Definition spec_ratio (n d : positive) : SpecFloat.spec_float :=
  unsigned_zero
    (SpecFloat.SFdiv 53 1024 (SpecFloat.S754_finite false n 0)
                     (SpecFloat.S754_finite false d 0)).

Definition spec_sub (x y : JS.JSNumber) : SpecFloat.spec_float :=
  unsigned_zero (SpecFloat.SFsub 53 1024 (to_spec_float x) (to_spec_float y)).

(** The Number of opposite sign. *)
Definition negate (x : JS.JSNumber) : JS.JSNumber :=
  match x with
  | JS.NaN => JS.NaN
  | JS.Infinity s => JS.Infinity (negb s)
  | JS.Finite m e => JS.Finite (- m) e
  end.

(** A string of decimal digits, and the natural number it spells,
    read onto [acc]. *)
Fixpoint all_digits (s : string) : bool :=
  match s with
  | EmptyString => true
  | String c s' => is_digit c && all_digits s'
  end.

Fixpoint decimal (acc : Z) (s : string) : Z :=
  match s with
  | EmptyString => acc
  | String c s' => decimal (acc * 10 + digit_value c) s'
  end.

(** An error result: a response with a 4xx or 5xx status. *)
Definition is_error (response : NextResponse) : bool :=
  400 <=? status response.

Definition Venue_eq_dec (a b : Venue.t) : {a = b} + {a <> b}.
Proof. decide equality; apply string_dec. Defined.

Definition Genre_eq_dec (a b : Genre.t) : {a = b} + {a <> b}.
Proof. decide equality; apply string_dec. Defined.

Definition Event_eq_dec (a b : Event.t) : {a = b} + {a <> b}.
Proof.
  decide equality;
    first [ apply string_dec | apply Z.eq_dec | apply Venue_eq_dec
          | apply (list_eq_dec Genre_eq_dec) ].
Defined.

Definition member (e : Event.t) (l : list Event.t) : bool :=
  if in_dec Event_eq_dec e l then true else false.

(** The intersection of three results, as a sublist of the store. *)
Definition intersection (store r1 r2 r3 : list Event.t) : list Event.t :=
  filter (fun e => member e r1 && member e r2 && member e r3) store.

(** [l1] is [l2] with some elements left out, the rest in place. *)
Inductive subsequence {A : Type} : list A -> list A -> Prop :=
| subsequence_nil : subsequence [] []
| subsequence_skip x l1 l2 : subsequence l1 l2 -> subsequence l1 (x :: l2)
| subsequence_keep x l1 l2 : subsequence l1 l2 -> subsequence (x :: l1) (x :: l2).

(** ** A sample store *)

Module Sample.

Definition pustervik : Venue.t :=
  {| Venue.id := "v1"; Venue.slug := "pustervik"; Venue.name := "Pustervik";
     Venue.address := "Jarntorgsgatan 12"; Venue.city := "Goteborg" |}.

Definition nefertiti : Venue.t :=
  {| Venue.id := "v2"; Venue.slug := "nefertiti"; Venue.name := "Nefertiti";
     Venue.address := "Hvitfeldtsplatsen 6"; Venue.city := "Goteborg" |}.

Definition rock : Genre.t :=
  {| Genre.id := "g1"; Genre.slug := "rock"; Genre.name := "Rock";
     Genre.color := "#e11d48" |}.

Definition jazz : Genre.t :=
  {| Genre.id := "g2"; Genre.slug := "jazz"; Genre.name := "Jazz";
     Genre.color := "#2563eb" |}.

(** 5 November 2025, 19:00 to 22:00 in Gothenburg. *)
Definition event1 : Event.t :=
  {| Event.id := "e1"; Event.slug := "rock-at-pustervik";
     Event.title := "Rock at Pustervik";
     Event.startTime := 1762365600000; Event.endTime := 1762376400000;
     Event.venue := pustervik; Event.genres := [rock] |}.

(** 1 December 2025, 20:00 to 23:00 in Gothenburg. *)
Definition event2 : Event.t :=
  {| Event.id := "e2"; Event.slug := "jazz-at-nefertiti";
     Event.title := "Jazz at Nefertiti";
     Event.startTime := 1764615600000; Event.endTime := 1764626400000;
     Event.venue := nefertiti; Event.genres := [jazz] |}.

Definition store : list Event.t := [event1; event2].

(** 1 November 2025, 00:30 to 02:30 in Gothenburg; still 31 October
    at the start in UTC. *)
Definition late_event : Event.t :=
  {| Event.id := "e3"; Event.slug := "late-at-pustervik";
     Event.title := "Late at Pustervik";
     Event.startTime := 1761953400000; Event.endTime := 1761960600000;
     Event.venue := pustervik; Event.genres := [rock; jazz] |}.

(** Central European Time: one hour ahead of UTC.  And UTC. *)
Definition CET (t : Z) : Z := 3600000.
Definition UTC (t : Z) : Z := 0.

End Sample.

(** * Properties *)

(** ** Numbers *)

Module NumberFacts.
Import JS.

Lemma pow2_pos e : 0 <= e -> 0 < 2 ^ e.
Proof. intros. apply Z.pow_pos_nonneg; lia. Qed.

Lemma rne_exact m d : 0 < d -> rne (m * d) d = m.
Proof.
  intros Hd. unfold rne.
  rewrite Z.div_mul, Z.mod_mul by lia.
  destruct (Z.ltb_spec (2 * 0) d); [reflexivity | lia].
Qed.

Lemma rne_between n d a b :
  0 < d -> a * d <= n -> n <= b * d -> a <= rne n d <= b.
Proof.
  intros Hd Ha Hb. unfold rne.
  pose proof (Z.div_mod n d ltac:(lia)) as Hn.
  pose proof (Z.mod_pos_bound n d Hd) as Hr.
  destruct (Z.ltb_spec (2 * (n mod d)) d);
    [| destruct (Z.ltb_spec d (2 * (n mod d)));
       [| destruct (Z.even (n / d))]]; nia.
Qed.

(** The exponent and the rounded significand [round_scaled] settles
    on, before the carry into the next binade. *)
Lemma round_core N d :
  0 <= N -> 0 < d ->
  let E := Z.max (Z.log2 (N / d) - 52) 0 in
  let r := rne N (d * 2 ^ E) in
  0 <= E /\ 0 <= r <= 2 ^ 53 /\ (E = 0 \/ 2 ^ 52 <= r).
Proof.
  intros HN Hd E r.
  assert (HE : 0 <= E) by (unfold E; lia).
  pose proof (pow2_pos E HE) as HpE.
  assert (HQ : 0 <= N / d) by (apply Z.div_pos; lia).
  assert (Hup : N < 2 ^ 53 * (d * 2 ^ E)).
  { assert (N / d < 2 ^ (E + 53)).
    { destruct (Z.eq_dec (N / d) 0) as [-> | Hnz].
      - apply Z.pow_pos_nonneg; lia.
      - pose proof (Z.log2_spec (N / d) ltac:(lia)) as [_ Hlt].
        eapply Z.lt_le_trans; [exact Hlt |].
        apply Z.pow_le_mono_r; unfold E; lia. }
    rewrite Z.pow_add_r in H by lia.
    pose proof (Z.mul_succ_div_gt N d Hd). nia. }
  split; [exact HE |]. split.
  - apply rne_between; nia.
  - destruct (Z.eq_dec E 0) as [? | HnE]; [left; assumption | right].
    assert (HL : E = Z.log2 (N / d) - 52) by (unfold E in *; lia).
    assert (0 < N / d).
    { destruct (Z.eq_dec (N / d) 0) as [Hz | ?]; [| lia].
      rewrite Hz in HL. simpl in HL. lia. }
    pose proof (Z.log2_spec (N / d) ltac:(lia)) as [Hle _].
    replace (Z.log2 (N / d)) with (52 + E) in Hle by lia.
    rewrite Z.pow_add_r in Hle by lia.
    pose proof (Z.mul_div_le N d Hd).
    apply (rne_between N (d * 2 ^ E) (2 ^ 52) (2 ^ 53)); nia.
Qed.

Lemma round_scaled_canonical s N d x :
  0 <= N -> 0 < d -> round_scaled s N d = x ->
  canonical_number x
  /\ match x with
     | Finite m e => if s then m <= 0 else 0 <= m
     | Infinity s' => s' = s
     | NaN => False
     end.
Proof.
  intros HN Hd <-. unfold round_scaled.
  pose proof (round_core N d HN Hd) as (HE & Hr & Hn).
  cbv zeta in HE, Hr, Hn.
  set (E := Z.max (Z.log2 (N / d) - 52) 0) in *.
  set (r := rne N (d * 2 ^ E)) in *.
  assert (H52 : 2 ^ 53 = 2 * 2 ^ 52) by reflexivity.
  assert (0 < 2 ^ 52) by (apply pow2_pos; lia).
  unfold emax, emin.
  destruct (Z.eqb_spec r (2 ^ 53)) as [Hr53 | Hr53];
    match goal with
    | |- context [if ?b <? ?c then _ else _] => destruct (Z.ltb_spec b c)
    end; simpl; try (split; [exact I | reflexivity]).
  - split; [| destruct s; lia].
    unfold canonical, emin, emax. destruct s; simpl; lia.
  - split; [| destruct s; lia].
    unfold canonical, emin, emax. destruct s; simpl; lia.
Qed.

(** A value that fits the format is left alone by rounding. *)
Lemma round_scaled_exact s m E d :
  0 < d -> 0 < m < 2 ^ 53 -> 0 <= E <= emax - emin ->
  (E = 0 \/ 2 ^ 52 <= m) ->
  round_scaled s (m * 2 ^ E * d) d = Finite (signed s m) (E + emin).
Proof.
  intros Hd Hm HE Hn. unfold round_scaled.
  pose proof (pow2_pos E ltac:(lia)) as HpE.
  rewrite Z.div_mul by lia.
  rewrite Z.log2_mul_pow2 by lia.
  assert (HL : Z.log2 m < 53) by (apply Z.log2_lt_pow2; lia).
  assert (HM : Z.max (E + Z.log2 m - 52) 0 = E).
  { destruct Hn as [-> | Hn].
    - pose proof (Z.log2_nonneg m). lia.
    - assert (52 <= Z.log2 m) by (apply Z.log2_le_pow2; lia). lia. }
  rewrite HM.
  replace (m * 2 ^ E * d) with (m * (d * 2 ^ E)) by ring.
  rewrite rne_exact by nia.
  destruct (Z.eqb_spec m (2 ^ 53)); [lia |].
  destruct (Z.ltb_spec (emax - emin) E); [lia | reflexivity].
Qed.

(** The same for a value [u * 2^j] given with any significand below
    [2^53]: rounding only moves the leading bit into place. *)
Lemma round_scaled_representable s u j d :
  0 < d -> 0 < u < 2 ^ 53 -> 0 <= j <= emax - emin ->
  let shift := Z.min (52 - Z.log2 u) j in
  round_scaled s (u * 2 ^ j * d) d
  = Finite (signed s (u * 2 ^ shift)) (j - shift + emin).
Proof.
  intros Hd Hu Hj shift.
  assert (HL : Z.log2 u < 53) by (apply Z.log2_lt_pow2; lia).
  pose proof (Z.log2_nonneg u) as HL0.
  pose proof (Z.log2_spec u ltac:(lia)) as [Hlo Hhi].
  assert (Hs : 0 <= shift <= j) by (unfold shift; lia).
  pose proof (pow2_pos shift ltac:(lia)) as Hps.
  replace (u * 2 ^ j) with (u * 2 ^ shift * 2 ^ (j - shift)).
  2:{ rewrite <- Z.mul_assoc, <- Z.pow_add_r by lia. do 2 f_equal. lia. }
  apply round_scaled_exact; try lia.
  - split; [nia |].
    apply Z.lt_le_trans with (2 ^ Z.succ (Z.log2 u) * 2 ^ shift); [nia |].
    rewrite <- Z.pow_add_r by lia.
    apply Z.pow_le_mono_r; unfold shift; lia.
  - destruct (Z.le_gt_cases j (52 - Z.log2 u)) as [Hc | Hc].
    + left. unfold shift. lia.
    + right. replace shift with (52 - Z.log2 u) by (unfold shift; lia).
      replace (2 ^ 52) with (2 ^ Z.log2 u * 2 ^ (52 - Z.log2 u)).
      2:{ rewrite <- Z.pow_add_r by lia. f_equal. lia. }
      pose proof (pow2_pos (52 - Z.log2 u) ltac:(lia)). nia.
Qed.

(** A value of at least [2^A * 2^emin] in the normal range rounds to a
    normal number whose exponent is at least [A - 52 + emin]. *)
Lemma round_scaled_large s N d A :
  0 < d -> 52 <= A -> d * 2 ^ A <= N ->
  match round_scaled s N d with
  | Finite m e =>
      2 ^ 52 <= Z.abs m /\ A - 52 + emin <= e /\ m = signed s (Z.abs m)
  | Infinity _ => True
  | NaN => False
  end.
Proof.
  intros Hd HA HN.
  pose proof (pow2_pos A ltac:(lia)) as HpA.
  assert (HN0 : 0 <= N) by nia.
  pose proof (round_core N d HN0 Hd) as (HE & Hr & _).
  cbv zeta in HE, Hr. unfold round_scaled.
  assert (HQ : 2 ^ A <= N / d) by (apply Z.div_le_lower_bound; lia).
  assert (HLA : A <= Z.log2 (N / d)) by (apply Z.log2_le_pow2; lia).
  pose proof (Z.log2_spec (N / d) ltac:(lia)) as [Hlo _].
  set (E := Z.max (Z.log2 (N / d) - 52) 0) in *.
  set (r := rne N (d * 2 ^ E)) in *.
  assert (HEq : Z.log2 (N / d) = 52 + E) by (unfold E; lia).
  assert (H52 : 2 ^ 52 <= r).
  { rewrite HEq, Z.pow_add_r in Hlo by lia.
    pose proof (Z.mul_div_le N d Hd).
    pose proof (pow2_pos E HE).
    apply (rne_between N (d * 2 ^ E) (2 ^ 52) (2 ^ 53)); try nia.
    pose proof (round_core N d HN0 Hd) as (_ & _ & _).
    assert (N / d < 2 ^ (E + 53)).
    { pose proof (Z.log2_spec (N / d) ltac:(lia)) as [_ Hlt].
      replace (E + 53) with (Z.succ (Z.log2 (N / d))) by lia. exact Hlt. }
    rewrite Z.pow_add_r in H1 by lia.
    pose proof (Z.mul_succ_div_gt N d Hd). nia. }
  assert (0 < 2 ^ 52) by (apply pow2_pos; lia).
  destruct (Z.eqb_spec r (2 ^ 53));
    match goal with
    | |- context [if ?b <? ?c then _ else _] => destruct (Z.ltb_spec b c)
    end; try exact I;
    (split; [destruct s; simpl; lia |]);
    (split; [lia | destruct s; simpl; lia]).
Qed.

(** On canonical numbers [===] is plain equality. *)
Lemma strict_eq_canonical m1 e1 m2 e2 :
  canonical m1 e1 -> canonical m2 e2 ->
  strict_eq (Finite m1 e1) (Finite m2 e2) = true ->
  m1 = m2 /\ e1 = e2.
Proof.
  intros (He1 & Hm1 & Hn1) (He2 & Hm2 & Hn2) H.
  unfold strict_eq in H. apply Z.eqb_eq in H.
  assert (Hstep : forall a b g, 0 < g -> a = b * 2 ^ g ->
                  Z.abs a < 2 ^ 53 -> 2 ^ 52 <= Z.abs b -> False).
  { intros a b g Hg -> Ha Hb.
    rewrite Z.abs_mul, (Z.abs_eq (2 ^ g)) in Ha
      by (apply Z.pow_nonneg; lia).
    replace g with (1 + (g - 1)) in Ha by lia.
    rewrite Z.pow_add_r in Ha by lia.
    pose proof (pow2_pos (g - 1) ltac:(lia)).
    change (2 ^ 53) with (2 * 2 ^ 52) in Ha. change (2 ^ 1) with 2 in Ha.
    nia. }
  destruct (Z.lt_trichotomy e1 e2) as [Hlt | [Heq | Hgt]].
  - exfalso. rewrite Z.min_l, Z.sub_diag, Z.mul_1_r in H by lia.
    apply (Hstep m1 m2 (e2 - e1)); lia.
  - subst e2. rewrite Z.min_id, Z.sub_diag, !Z.mul_1_r in H. auto.
  - exfalso. rewrite Z.min_r, Z.sub_diag, Z.mul_1_r in H by lia.
    apply (Hstep m2 m1 (e1 - e2)); lia.
Qed.

Lemma strict_eq_refl_Finite m e : strict_eq (Finite m e) (Finite m e) = true.
Proof. unfold strict_eq. apply Z.eqb_refl. Qed.

Lemma of_Z_canonical z : canonical_number (of_Z z).
Proof.
  unfold of_Z, round_ratio.
  eapply round_scaled_canonical; [| | reflexivity]; [| lia].
  pose proof (pow2_pos (- emin) ltac:(unfold emin; lia)). nia.
Qed.

Lemma of_Z_0 : of_Z 0 = Finite 0 emin.
Proof. reflexivity. Qed.

Lemma of_Z_1 : of_Z 1 = Finite (2 ^ 52) (-52).
Proof. reflexivity. Qed.

(** The Number for a positive integer below [2^53] is that integer. *)
Lemma of_Z_small z :
  0 < z < 2 ^ 53 ->
  of_Z z = Finite (z * 2 ^ (52 - Z.log2 z)) (Z.log2 z - 52).
Proof.
  intros Hz. unfold of_Z, round_ratio.
  destruct (Z.ltb_spec z 0); [lia |].
  rewrite Z.abs_eq by lia.
  assert (HL : Z.log2 z < 53) by (apply Z.log2_lt_pow2; lia).
  pose proof (Z.log2_nonneg z).
  replace (z * 2 ^ (- emin)) with (z * 2 ^ (- emin) * 1) by ring.
  rewrite round_scaled_representable by (unfold emax, emin; lia).
  unfold emin. rewrite Z.min_l by lia.
  simpl signed. f_equal. lia.
Qed.

Lemma of_Z_large z :
  2 ^ 53 <= Z.abs z ->
  match of_Z z with
  | Finite m e => 1 <= e
  | _ => True
  end.
Proof.
  intros Hz. unfold of_Z, round_ratio.
  pose proof (round_scaled_large (z <? 0) (Z.abs z * 2 ^ (- emin)) 1
                (53 + - emin) ltac:(lia) ltac:(unfold emin; lia)) as H.
  rewrite Z.pow_add_r in H by (unfold emin; lia).
  pose proof (pow2_pos (- emin) ltac:(unfold emin; lia)).
  specialize (H ltac:(nia)).
  destruct (round_scaled _ _ _); auto. unfold emin in *. lia.
Qed.

Lemma of_Z_negative z :
  z < 0 ->
  match of_Z z with
  | Finite m e => m < 0
  | _ => True
  end.
Proof.
  intros Hz. unfold of_Z, round_ratio.
  pose proof (round_scaled_large (z <? 0) (Z.abs z * 2 ^ (- emin)) 1
                (- emin) ltac:(lia) ltac:(unfold emin; lia)) as H.
  pose proof (pow2_pos (- emin) ltac:(unfold emin; lia)).
  specialize (H ltac:(nia)).
  destruct (Z.ltb_spec z 0); [| lia].
  destruct (round_scaled _ _ _); auto. simpl in H. lia.
Qed.

(** Distinct integers are distinct Numbers as long as one of them is a
    natural number below [2^53]. *)
Lemma of_Z_inj_small y Y :
  0 <= Y < 2 ^ 53 -> of_Z y = of_Z Y -> y = Y.
Proof.
  intros HY H.
  assert (Hpos : forall z, 0 < z < 2 ^ 53 ->
            exists m e, of_Z z = Finite m e /\ 0 < m /\ e <= 0
                        /\ z * 2 ^ 52 = m * 2 ^ (e + 52)).
  { intros z Hz. rewrite (of_Z_small z Hz).
    assert (Z.log2 z < 53) by (apply Z.log2_lt_pow2; lia).
    pose proof (Z.log2_nonneg z).
    pose proof (pow2_pos (52 - Z.log2 z) ltac:(lia)).
    do 2 eexists. split; [reflexivity |]. split; [nia |]. split; [lia |].
    rewrite <- Z.mul_assoc, <- Z.pow_add_r by lia.
    do 2 f_equal. lia. }
  assert (Hy : y < 0 \/ y = 0 \/ 0 < y < 2 ^ 53 \/ 2 ^ 53 <= y) by lia.
  assert (HY' : Y = 0 \/ 0 < Y < 2 ^ 53) by lia.
  destruct HY' as [-> | HY'].
  - rewrite of_Z_0 in H.
    destruct Hy as [Hy | [Hy | [Hy | Hy]]]; [| assumption | |].
    + pose proof (of_Z_negative y Hy) as Hn. rewrite H in Hn. lia.
    + destruct (Hpos y Hy) as (m & e & Hm & ? & _).
      rewrite H in Hm. inversion Hm. lia.
    + pose proof (of_Z_large y ltac:(lia)) as Hl. rewrite H in Hl.
      unfold emin in Hl. lia.
  - destruct (Hpos Y HY') as (M & E & HM & HM0 & HE & HMv).
    rewrite HM in H.
    destruct Hy as [Hy | [Hy | [Hy | Hy]]].
    + pose proof (of_Z_negative y Hy) as Hn. rewrite H in Hn. lia.
    + subst y. rewrite of_Z_0 in H. inversion H. lia.
    + destruct (Hpos y Hy) as (m & e & Hm & _ & _ & Hmv).
      rewrite Hm in H. inversion H; subst.
      assert (0 < 2 ^ 52) by (apply pow2_pos; lia). nia.
    + pose proof (of_Z_large y ltac:(lia)) as Hl. rewrite H in Hl. lia.
Qed.

Lemma split_pow2 a b : 0 <= a -> 0 <= b -> 2 ^ (a + b) = 2 ^ a * 2 ^ b.
Proof. intros. apply Z.pow_add_r; lia. Qed.

Lemma round_scaled_unit s u j :
  0 < u < 2 ^ 53 -> 0 <= j <= emax - emin ->
  round_scaled s (u * 2 ^ j) 1
  = Finite (signed s (u * 2 ^ Z.min (52 - Z.log2 u) j))
           (j - Z.min (52 - Z.log2 u) j + emin).
Proof.
  intros Hu Hj.
  rewrite <- (Z.mul_1_r (u * 2 ^ j)).
  apply round_scaled_representable; lia.
Qed.

(** Two values that fit the format and round alike are equal. *)
Lemma representable_inj s u1 j1 u2 j2 :
  0 < u1 < 2 ^ 53 -> 0 <= j1 <= emax - emin ->
  0 < u2 < 2 ^ 53 -> 0 <= j2 <= emax - emin ->
  round_scaled s (u1 * 2 ^ j1) 1 = round_scaled s (u2 * 2 ^ j2) 1 ->
  u1 * 2 ^ j1 = u2 * 2 ^ j2.
Proof.
  intros Hu1 Hj1 Hu2 Hj2 H.
  rewrite !round_scaled_unit in H by assumption.
  pose proof (Z.log2_nonneg u1). pose proof (Z.log2_nonneg u2).
  assert (Z.log2 u1 < 53) by (apply Z.log2_lt_pow2; lia).
  assert (Z.log2 u2 < 53) by (apply Z.log2_lt_pow2; lia).
  set (s1 := Z.min (52 - Z.log2 u1) j1) in *.
  set (s2 := Z.min (52 - Z.log2 u2) j2) in *.
  inversion H as [[Hm He]].
  assert (Hm' : u1 * 2 ^ s1 = u2 * 2 ^ s2) by (destruct s; simpl in Hm; lia).
  replace j1 with (s1 + (j1 - s1)) by lia.
  replace j2 with (s2 + (j2 - s2)) by lia.
  rewrite !split_pow2 by (unfold s1, s2; lia).
  replace (j2 - s2) with (j1 - s1) by lia.
  rewrite !Z.mul_assoc, Hm'. reflexivity.
Qed.

Lemma of_Z_nonneg_Finite k :
  0 <= k < 2 ^ 52 ->
  exists mk ek, of_Z k = Finite mk ek /\ 0 <= mk /\ ek < 0
                /\ (mk = 0 -> k = 0).
Proof.
  intros Hk. destruct (Z.eq_dec k 0) as [-> | Hnz].
  - exists 0, emin. rewrite of_Z_0. unfold emin. repeat split; lia.
  - rewrite of_Z_small by lia.
    assert (Z.log2 k < 52) by (apply Z.log2_lt_pow2; lia).
    pose proof (pow2_pos (52 - Z.log2 k) ltac:(lia)).
    do 2 eexists. split; [reflexivity |]. repeat split; nia.
Qed.

(** Where the difference [x - 1] is a natural number, [x] is the next
    one: subtraction does not round a non-integer onto an integer. *)
Lemma sub_one_integer x k :
  canonical_number x -> 0 <= k < 2 ^ 52 ->
  sub x (of_Z 1) = of_Z k -> x = of_Z (k + 1).
Proof.
  intros Hx Hk H.
  destruct (of_Z_nonneg_Finite k Hk) as (mk & ek & Hofk & Hmk & Hek & Hk0).
  rewrite of_Z_1 in H.
  destruct x as [| s | m e];
    [simpl in H; congruence | simpl in H; congruence |].
  unfold sub in H. cbv zeta in H.
  destruct Hx as (He & Hm & Hn). unfold emin, emax in He, Hn.
  assert (H52 : 0 < 2 ^ 52) by (apply pow2_pos; lia).
  assert (H53 : 2 ^ 53 = 2 * 2 ^ 52) by reflexivity.
  set (em := Z.min e (-52)) in *.
  set (D := m * 2 ^ (e - em) - 2 ^ 52 * 2 ^ (-52 - em)) in *.
  assert (Hregion : (m <= 0 \/ e <= -53) \/ (0 < m /\ 1 <= e)
                    \/ (0 < m /\ -52 <= e <= 0)) by lia.
  destruct Hregion as [HA | [HB | HC]].
  - (* x < 1: the difference is negative and at least a half in size *)
    exfalso.
    assert (HD : D < 0 /\ 2 ^ 52 <= Z.abs D * 2 ^ (em - emin)).
    { pose proof (pow2_pos (e - em) ltac:(unfold em; lia)).
      pose proof (pow2_pos (-52 - em) ltac:(unfold em; lia)).
      pose proof (pow2_pos (em - emin) ltac:(unfold em, emin; lia)).
      destruct (Z_le_gt_dec m 0) as [Hm0 | Hm0].
      - assert (D <= - 2 ^ 52) by (unfold D; nia).
        split; [lia |]. rewrite Z.abs_neq by lia. nia.
      - assert (e <= -53) by lia.
        assert (Hem : em = e) by (unfold em; lia).
        unfold D. rewrite Hem, Z.sub_diag, Z.mul_1_r.
        replace (-52 - e) with (1 + (-53 - e)) by lia.
        rewrite split_pow2 by lia. change (2 ^ 1) with 2.
        pose proof (pow2_pos (-53 - e) ltac:(lia)).
        rewrite Z.abs_eq in Hm by lia.
        split; [nia |].
        rewrite Z.abs_neq by nia.
        destruct (Z.eq_dec e (-53)) as [-> | Hne].
        + change (-53 - -53) with 0. change (2 ^ 0) with 1.
          assert (1 <= - (m - 2 ^ 52 * (2 * 1))) by lia.
          assert (2 ^ 52 <= 2 ^ (-53 - emin)).
          { apply Z.pow_le_mono_r; unfold emin; lia. }
          rewrite Hem in *. nia.
        + replace (-53 - e) with (1 + (-54 - e)) by lia.
          rewrite split_pow2 by lia. change (2 ^ 1) with 2.
          pose proof (pow2_pos (-54 - e) ltac:(lia)).
          rewrite Hem in *. nia. }
    destruct HD as [HD HN].
    pose proof (round_scaled_large (D <? 0) (Z.abs D * 2 ^ (em - emin)) 1 52
                  ltac:(lia) ltac:(lia) ltac:(lia)) as HR.
    rewrite H, Hofk in HR. destruct HR as (HR1 & _ & HR3).
    destruct (Z.ltb_spec D 0); [| lia]. simpl in HR3. lia.
  - (* x >= 2^53: the difference is too large *)
    exfalso.
    assert (Hem : em = -52) by (unfold em; lia).
    assert (2 ^ 52 <= m) by (rewrite Z.abs_eq in Hn by lia; lia).
    assert (HD : 2 ^ 104 <= D).
    { unfold D. rewrite Hem. change (-52 - -52) with 0. change (2 ^ 0) with 1.
      replace (e - -52) with (53 + (e - 1)) by lia.
      rewrite split_pow2 by lia.
      pose proof (pow2_pos (e - 1) ltac:(lia)).
      change (2 ^ 104) with (2 ^ 52 * 2 ^ 52).
      assert (2 ^ 53 <= 2 ^ 53 * 2 ^ (e - 1)) by nia.
      nia. }
    pose proof (round_scaled_large (D <? 0) (Z.abs D * 2 ^ (em - emin)) 1
                  (104 + 1022) ltac:(lia) ltac:(lia)) as HR.
    rewrite H, Hofk in HR.
    rewrite Hem in HR. change (-52 - emin) with 1022 in HR.
    rewrite split_pow2 in HR by lia.
    pose proof (pow2_pos 1022 ltac:(lia)).
    rewrite Z.abs_eq in HR by lia.
    specialize (HR ltac:(nia)). unfold emin in HR. lia.
  - (* 1 <= x < 2^53: the difference fits the format *)
    destruct HC as [Hm0 HeC].
    assert (Hem : em = -52) by (unfold em; lia).
    rewrite Z.abs_eq in Hm, Hn by lia.
    assert (Hm52 : 2 ^ 52 <= m) by lia.
    pose proof (pow2_pos (- e) ltac:(lia)) as Hpe.
    pose proof (pow2_pos (e + 52) ltac:(lia)) as Hpe'.
    assert (Hsplit : 2 ^ 52 = 2 ^ (- e) * 2 ^ (e + 52)).
    { rewrite <- split_pow2 by lia. f_equal. lia. }
    assert (HDu : D = (m - 2 ^ (- e)) * 2 ^ (e + 52)).
    { unfold D. rewrite Hem. change (-52 - -52) with 0. change (2 ^ 0) with 1.
      replace (e - -52) with (e + 52) by lia. rewrite Hsplit at 1. ring. }
    assert (Hu : 0 <= m - 2 ^ (- e) < 2 ^ 53).
    { split; [| lia]. rewrite Hsplit in Hm52.
      assert (2 ^ (e + 52) <= 2 ^ 52) by (apply Z.pow_le_mono_r; lia).
      nia. }
    assert (HD0 : 0 <= D) by (rewrite HDu; nia).
    destruct (Z.ltb_spec D 0); [lia |].
    rewrite Z.abs_eq, Hem in H by lia.
    change (-52 - emin) with 1022 in H.
    assert (Hx : Finite m e = round_scaled false (m * 2 ^ (e + 1074)) 1).
    { rewrite <- (Z.mul_1_r (m * 2 ^ (e + 1074))).
      rewrite round_scaled_exact by (unfold emax, emin; lia).
      simpl. f_equal. unfold emin. lia. }
    assert (Hgoal : m * 2 ^ (e + 1074) = (k + 1) * 2 ^ 1074 ->
                    Finite m e = of_Z (k + 1)).
    { intros Heq. rewrite Hx, Heq. unfold of_Z, round_ratio.
      destruct (Z.ltb_spec (k + 1) 0); [lia |].
      rewrite Z.abs_eq by lia. reflexivity. }
    apply Hgoal.
    assert (H1074 : 2 ^ 1074 = 2 ^ (- e) * 2 ^ (e + 1074)).
    { rewrite <- split_pow2 by lia. f_equal. lia. }
    assert (He1074 : 2 ^ (e + 1074) = 2 ^ (e + 52) * 2 ^ 1022).
    { rewrite <- split_pow2 by lia. f_equal. lia. }
    destruct (Z.eq_dec (m - 2 ^ (- e)) 0) as [Hu0 | Hu0].
    + rewrite HDu, Hu0 in H. simpl in H.
      change (round_scaled false 0 1) with (Finite 0 emin) in H.
      rewrite Hofk in H. inversion H as [[Hm' He']].
      rewrite (Hk0 (eq_sym Hm')). replace m with (2 ^ (- e)) by lia.
      rewrite <- H1074. ring.
    + destruct (Z.eq_dec k 0) as [-> | Hknz].
      * exfalso. rewrite HDu, <- Z.mul_assoc, <- He1074 in H.
        rewrite round_scaled_unit in H by (unfold emax, emin; lia).
        rewrite of_Z_0 in H. inversion H as [[Hm' He']].
        pose proof (Z.log2_nonneg (m - 2 ^ (- e))).
        assert (Z.log2 (m - 2 ^ (- e)) < 53) by (apply Z.log2_lt_pow2; lia).
        pose proof (pow2_pos (Z.min (52 - Z.log2 (m - 2 ^ (- e))) (e + 1074))
                      ltac:(lia)).
        simpl in Hm'. nia.
      * assert (Hk' : of_Z k = round_scaled false (k * 2 ^ 1074) 1).
        { unfold of_Z, round_ratio.
          destruct (Z.ltb_spec k 0); [lia |].
          rewrite Z.abs_eq by lia. reflexivity. }
        rewrite Hk', HDu, <- Z.mul_assoc, <- He1074 in H.
        apply representable_inj in H; unfold emax, emin; lia.
Qed.

End NumberFacts.

(** [round_ratio] and [sub] against the binary64 specification of the
    standard library, on ties, subnormals, the overflow threshold and
    plain cases. *)
Example round_ratio_agrees_with_SpecFloat :
  forallb
    (fun '(n, d) =>
       spec_float_eqb (to_spec_float (JS.round_ratio false (Zpos n) (Zpos d)))
                      (spec_ratio n d))
    [(1, 10); (1, 3); (2025, 1); (9007199254740993, 1);
     (9007199254740995, 1); (5, 10 ^ 324); (25, 10 ^ 325);
     (22250738585072014, 10 ^ 324); (17976931348623159 * 10 ^ 292, 1);
     (2 ^ 1024 - 2 ^ 970 - 1, 1); (2 ^ 1024 - 2 ^ 970, 1);
     (11 * 10 ^ 22 + 1, 10 ^ 22)]%positive
  = true.
Proof. vm_compute. reflexivity. Qed.

Example sub_agrees_with_SpecFloat :
  forallb
    (fun '(a, b) =>
       spec_float_eqb (to_spec_float (JS.sub (JS.Number a) (JS.Number b)))
                      (spec_sub (JS.Number a) (JS.Number b)))
    [("0.3", "0.1"); ("1", "1"); ("12", "1"); ("0", "1");
     ("9007199254740993", "1"); ("5e-324", "1");
     ("1.0000000000000002", "1"); ("0.9999999999999999", "1");
     ("1e308", "-1e308"); ("1e-320", "1e-322"); ("Infinity", "1");
     ("abc", "1")]
  = true.
Proof. vm_compute. reflexivity. Qed.

(** [Number] on a few strings. *)
Example Number_examples :
  JS.Number "2025" = JS.of_Z 2025
  /\ JS.Number " 11 " = JS.of_Z 11
  /\ JS.Number "" = JS.of_Z 0
  /\ JS.Number "0xB" = JS.of_Z 11
  /\ JS.Number "1.1e1" = JS.of_Z 11
  /\ JS.Number "11.000000000000000000001" = JS.of_Z 11
  /\ JS.Number "0.1" = JS.Finite 7205759403792794 (-56)
  /\ JS.Number "abc" = JS.NaN
  /\ JS.Number "1_000" = JS.NaN
  /\ JS.Number "-0x10" = JS.NaN
  /\ JS.Number "." = JS.NaN
  /\ JS.Number "1e400" = JS.Infinity false
  /\ JS.Number "-Infinity" = JS.Infinity true.
Proof. vm_compute. repeat split. Qed.

(** ** Parsing and dates *)

Module ParseFacts.
Import JS NumberFacts.

Lemma digit_of_nonneg radix c v : digit_of radix c = Some v -> 0 <= v.
Proof.
  unfold digit_of. intros H.
  repeat match type of H with
  | context [if ?b then _ else _] => destruct b eqn:?
  end; inversion H; subst; lia.
Qed.

Lemma read_digits_nonneg radix s : forall acc count,
  0 <= radix -> 0 <= acc -> 0 <= fst (fst (read_digits radix s acc count)).
Proof.
  induction s as [| c s IH]; intros acc count Hr Ha; simpl; [assumption |].
  destruct (digit_of radix c) as [v |] eqn:Hv; [| assumption].
  apply IH; [assumption |].
  pose proof (digit_of_nonneg _ _ _ Hv). nia.
Qed.

Lemma round_ratio_canonical s n d :
  0 <= n -> 0 < d -> canonical_number (round_ratio s n d).
Proof.
  intros Hn Hd. unfold round_ratio.
  eapply round_scaled_canonical; [| exact Hd | reflexivity].
  pose proof (pow2_pos (- emin) ltac:(unfold emin; lia)). nia.
Qed.

Lemma parse_exponent_nonneg s digits k l :
  0 <= digits -> parse_exponent s digits k = Some l ->
  match l with LDecimal d _ => 0 <= d | LInfinity => True end.
Proof.
  intros Hd. unfold parse_exponent.
  destruct s as [| c s]; [intros H; inversion H; assumption |].
  destruct (Ascii.eqb c "e" || Ascii.eqb c "E")%bool; [| discriminate].
  destruct (match s with
            | String "+" t => (false, t)
            | String "-" t => (true, t)
            | _ => (false, s)
            end) as [negative s''].
  destruct (read_digits 10 s'' 0 0) as [[x count] rest].
  destruct rest; [| discriminate].
  destruct (0 <? count); [| discriminate].
  intros H; inversion H; assumption.
Qed.

Lemma parse_unsigned_nonneg s l :
  parse_unsigned s = Some l ->
  match l with LDecimal d _ => 0 <= d | LInfinity => True end.
Proof.
  unfold parse_unsigned.
  destruct (String.eqb s "Infinity"); [intros H; inversion H; exact I |].
  pose proof (read_digits_nonneg 10 s 0 0 ltac:(lia) ltac:(lia)) as Hi.
  destruct (read_digits 10 s 0 0) as [[int_part int_count] rest].
  simpl in Hi.
  assert (Hplain : (if int_count =? 0 then None
                    else parse_exponent rest int_part 0) = Some l ->
                   match l with LDecimal d _ => 0 <= d | LInfinity => True end).
  { destruct (int_count =? 0); [discriminate |].
    apply parse_exponent_nonneg; assumption. }
  destruct rest as [| c rest']; [exact Hplain |].
  destruct (Ascii.eqb_spec c "."%char) as [-> | Hc].
  - pose proof (read_digits_nonneg 10 rest' int_part 0 ltac:(lia) Hi) as Hf.
    destruct (read_digits 10 rest' int_part 0) as [[digits frac_count] rest''].
    simpl in Hf.
    destruct (int_count + frac_count =? 0); [discriminate |].
    apply parse_exponent_nonneg; assumption.
  - destruct c as [[] [] [] [] [] [] [] []]; try exact Hplain.
    congruence.
Qed.

Lemma literal_value_canonical s l :
  match l with LDecimal d _ => 0 <= d | LInfinity => True end ->
  canonical_number (literal_value s l).
Proof.
  destruct l as [| digits k]; simpl; [trivial |]. intros Hd.
  destruct (Z.leb_spec 0 k).
  - apply round_ratio_canonical; [| lia].
    pose proof (Z.pow_nonneg 10 k ltac:(lia)). nia.
  - apply round_ratio_canonical; [assumption |].
    apply Z.pow_pos_nonneg; lia.
Qed.

Lemma parse_radix_canonical radix s :
  0 <= radix -> canonical_number (parse_radix radix s).
Proof.
  intros Hr. unfold parse_radix.
  pose proof (read_digits_nonneg radix s 0 0 Hr ltac:(lia)) as Hv.
  destruct (read_digits radix s 0 0) as [[v count] rest]. simpl in Hv.
  destruct rest; [| exact I].
  destruct (0 <? count); [| exact I].
  apply round_ratio_canonical; lia.
Qed.

(** Every Number that [Number] makes of a string is a binary64 value. *)
Lemma Number_canonical s : canonical_number (Number s).
Proof.
  assert (Hsigned : forall negative t,
            canonical_number
              match parse_unsigned t with
              | Some l => literal_value negative l
              | None => NaN
              end).
  { intros negative t. destruct (parse_unsigned t) as [l |] eqn:Hl; [| exact I].
    apply literal_value_canonical. exact (parse_unsigned_nonneg t l Hl). }
  unfold Number.
  destruct (trim s) as [| c t]; [apply of_Z_canonical |].
  destruct c as [[] [] [] [] [] [] [] []]; try apply Hsigned;
    destruct t as [| c' t']; try apply Hsigned;
    destruct c' as [[] [] [] [] [] [] [] []];
    first [ apply Hsigned | apply parse_radix_canonical; lia ].
Qed.

Lemma MonthFromTime_range t : 0 <= MonthFromTime t <= 11.
Proof.
  unfold MonthFromTime.
  repeat match goal with
  | |- context [if ?b then _ else _] => destruct b
  end; lia.
Qed.

End ParseFacts.

(** ** Lists and strings *)

Module ListFacts.
Local Open Scope list_scope.

Lemma filter_twice {A : Type} (p q : A -> bool) l :
  filter p (filter q l) = filter (fun x => q x && p x) l.
Proof.
  induction l as [| x l IH]; simpl; [reflexivity |].
  destruct (q x); simpl; [destruct (p x) |]; rewrite IH; reflexivity.
Qed.

Lemma filter_all {A : Type} (p : A -> bool) l :
  (forall x, In x l -> p x = true) -> filter p l = l.
Proof.
  induction l as [| x l IH]; simpl; intros H; [reflexivity |].
  rewrite (H x) by auto. f_equal. apply IH. auto.
Qed.

Lemma filter_none {A : Type} (p : A -> bool) l :
  (forall x, In x l -> p x = false) -> filter p l = [].
Proof.
  induction l as [| x l IH]; simpl; intros H; [reflexivity |].
  rewrite (H x) by auto. apply IH. auto.
Qed.

Lemma subsequence_refl {A : Type} (l : list A) : subsequence l l.
Proof. induction l; constructor; assumption. Qed.

Lemma filter_subsequence {A : Type} (p : A -> bool) l :
  subsequence (filter p l) l.
Proof.
  induction l as [| x l IH]; simpl; [constructor |].
  destruct (p x); constructor; assumption.
Qed.

(** Two elements that follow one another in a subsequence do so in
    the list it was taken from. *)
Lemma subsequence_order {A : Type} (l1 l2 : list A) :
  subsequence l1 l2 ->
  forall a b pre mid post, l1 = pre ++ a :: mid ++ b :: post ->
  exists pre' mid' post', l2 = pre' ++ a :: mid' ++ b :: post'.
Proof.
  assert (Hone : forall l1 l2 : list A, subsequence l1 l2 ->
            forall b pre post, l1 = pre ++ b :: post ->
            exists pre' post', l2 = pre' ++ b :: post').
  { intros k1 k2 H. induction H as [| x k1 k2 H IH | x k1 k2 H IH];
      intros b pre post E.
    - destruct pre; discriminate.
    - destruct (IH b pre post E) as (pre' & post' & ->).
      exists (x :: pre'), post'. reflexivity.
    - destruct pre as [| y pre]; simpl in E; inversion E; subst.
      + exists [], k2. reflexivity.
      + destruct (IH b pre post eq_refl) as (pre' & post' & ->).
        exists (y :: pre'), post'. reflexivity. }
  intros H. induction H as [| x l1 l2 H IH | x l1 l2 H IH];
    intros a b pre mid post E.
  - destruct pre; discriminate.
  - destruct (IH a b pre mid post E) as (pre' & mid' & post' & ->).
    exists (x :: pre'), mid', post'. reflexivity.
  - destruct pre as [| y pre]; simpl in E; inversion E; subst.
    + destruct (Hone _ _ H b mid post eq_refl) as (mid' & post' & ->).
      exists [], mid', post'. reflexivity.
    + destruct (IH a b pre mid post eq_refl) as (pre' & mid' & post' & ->).
      exists (y :: pre'), mid', post'. reflexivity.
Qed.

End ListFacts.

Module StringFacts.
Import JS.

Lemma includes_In array s : includes array s = true <-> In s array.
Proof.
  unfold includes. rewrite existsb_exists. split.
  - intros (x & Hx & E). apply String.eqb_eq in E. subst. assumption.
  - intros H. exists s. split; [assumption | apply String.eqb_refl].
Qed.

Lemma split_not_nil sep s : split sep s <> [].
Proof.
  destruct s as [| c s]; simpl; [discriminate |].
  destruct (Ascii.eqb c sep); [discriminate |].
  destruct (split sep s); discriminate.
Qed.

Lemma split_separator sep s :
  split sep (String sep s) = EmptyString :: split sep s.
Proof. simpl. rewrite Ascii.eqb_refl. reflexivity. Qed.

Lemma split_other sep c s :
  Ascii.eqb c sep = false ->
  split sep (String c s)
  = match split sep s with
    | piece :: pieces => String c piece :: pieces
    | [] => [String c EmptyString]
    end.
Proof. intros H. simpl. rewrite H. reflexivity. Qed.

Lemma split_comma_free s : comma_free s = true -> split "," s = [s].
Proof.
  induction s as [| c s IH]; simpl; [reflexivity |].
  intros H. apply andb_prop in H as [Hc Hs].
  apply negb_true_iff in Hc. rewrite Hc, (IH Hs). reflexivity.
Qed.

Lemma split_append s rest :
  comma_free s = true ->
  split "," (s ++ String "," rest) = s :: split "," rest.
Proof.
  induction s as [| c s IH]; simpl; [reflexivity |].
  intros H. apply andb_prop in H as [Hc Hs].
  apply negb_true_iff in Hc. rewrite Hc, (IH Hs). reflexivity.
Qed.

(** Splitting a comma-separated list of slugs gives the slugs back. *)
Lemma split_comma_separated slugs :
  forallb slug_ok slugs = true ->
  filter Boolean (split "," (comma_separated slugs)) = slugs.
Proof.
  unfold comma_separated.
  induction slugs as [| s slugs IH]; [reflexivity |].
  intros H. simpl in H. apply andb_prop in H as [Hs Hrest].
  unfold slug_ok in Hs. apply andb_prop in Hs as [Hne Hcf].
  destruct slugs as [| s' slugs].
  - simpl. rewrite (split_comma_free s Hcf). simpl. rewrite Hne. reflexivity.
  - change (String.concat "," (s :: s' :: slugs))
      with (s ++ String "," (String.concat "," (s' :: slugs))).
    rewrite (split_append _ _ Hcf). simpl filter. rewrite Hne.
    f_equal. apply IH. assumption.
Qed.

(** A value made of commas holds no slug. *)
Lemma split_only_commas s :
  only_commas s = true -> filter Boolean (split "," s) = [].
Proof.
  induction s as [| c s IH]; simpl; [reflexivity |].
  intros H. apply andb_prop in H as [Hc Hs].
  rewrite Hc. simpl. apply IH. assumption.
Qed.

End StringFacts.

(** ** The handler as one filter *)

Module RouteFacts.
Import ListFacts.

Lemma GET_filter store LocalTZA request :
  GET store LocalTZA request
  = NextResponse_json
      (filter
         (fun event =>
            month_matches LocalTZA (get (searchParams request) "month") event
            && genres_match (slugs_of (get (searchParams request) "genres"))
                            event
            && venues_match (slugs_of (get (searchParams request) "venues"))
                            event)
         store).
Proof.
  unfold GET, month_matches, genres_match, venues_match. f_equal.
  set (month := get (searchParams request) "month").
  set (genres := slugs_of (get (searchParams request) "genres")).
  set (venues := slugs_of (get (searchParams request) "venues")).
  destruct month as [token |]; [destruct (JS.Boolean token) |];
    destruct (0 <? List.length genres)%nat;
    destruct (0 <? List.length venues)%nat;
    rewrite ?filter_twice;
    try (symmetry; apply filter_all; reflexivity);
    apply filter_ext; intros e;
    rewrite ?andb_true_r, ?andb_true_l, ?andb_assoc; reflexivity.
Qed.

Lemma get_query_month m g v : get (searchParams (query m g v)) "month" = m.
Proof. destruct m, g, v; reflexivity. Qed.

Lemma get_query_genres m g v : get (searchParams (query m g v)) "genres" = g.
Proof. destruct m, g, v; reflexivity. Qed.

Lemma get_query_venues m g v : get (searchParams (query m g v)) "venues" = v.
Proof. destruct m, g, v; reflexivity. Qed.

Lemma body_GET_query store LocalTZA m g v :
  body (GET store LocalTZA (query m g v))
  = filter (fun event =>
              month_matches LocalTZA m event
              && genres_match (slugs_of g) event
              && venues_match (slugs_of v) event)
           store.
Proof.
  rewrite GET_filter, get_query_month, get_query_genres, get_query_venues.
  reflexivity.
Qed.

Lemma member_filter (p : Event.t -> bool) store e :
  In e store -> member e (filter p store) = p e.
Proof.
  intros He. unfold member.
  destruct (in_dec Event_eq_dec e (filter p store)) as [Hin | Hout].
  - apply filter_In in Hin. symmetry. tauto.
  - destruct (p e) eqn:Hp; [| reflexivity].
    exfalso. apply Hout. apply filter_In. auto.
Qed.

End RouteFacts.

(** ** The month test *)

Module MonthFacts.
Import JS NumberFacts ParseFacts StringFacts.

Lemma is_digit_cases c :
  is_digit c = true ->
  In c ["0"; "1"; "2"; "3"; "4"; "5"; "6"; "7"; "8"; "9"]%char.
Proof.
  destruct c as [[] [] [] [] [] [] [] []]; intros H;
    try discriminate H; simpl; tauto.
Qed.

Lemma is_digit_not_hyphen c : is_digit c = true -> Ascii.eqb c "-" = false.
Proof.
  intros H. apply is_digit_cases in H. simpl in H.
  repeat destruct H as [<- | H]; try reflexivity. contradiction.
Qed.

Lemma is_digit_not_white c : is_digit c = true -> is_white c = false.
Proof.
  intros H. apply is_digit_cases in H. simpl in H.
  repeat destruct H as [<- | H]; try reflexivity. contradiction.
Qed.

Lemma is_digit_value c : is_digit c = true -> 0 <= digit_value c <= 9.
Proof.
  unfold is_digit, digit_value. cbv zeta. intros H.
  apply andb_prop in H as [H1 H2].
  apply Z.leb_le in H1, H2. lia.
Qed.

Lemma digit_of_digit c :
  is_digit c = true -> digit_of 10 c = Some (digit_value c).
Proof.
  intros H. apply is_digit_cases in H. simpl in H.
  repeat destruct H as [<- | H]; try reflexivity. contradiction.
Qed.

Lemma decimal_nonneg s : forall acc,
  all_digits s = true -> 0 <= acc -> 0 <= decimal acc s.
Proof.
  induction s as [| c s IH]; simpl; intros acc H Hacc; [assumption |].
  apply andb_prop in H as [Hc Hs]. apply IH; [assumption |].
  pose proof (is_digit_value c Hc). lia.
Qed.

Lemma read_digits_all s : forall acc count,
  all_digits s = true ->
  read_digits 10 s acc count
  = (decimal acc s, count + Z.of_nat (String.length s), EmptyString).
Proof.
  induction s as [| c s IH]; intros acc count H.
  - simpl. rewrite Z.add_0_r. reflexivity.
  - simpl in H. apply andb_prop in H as [Hc Hs].
    cbn [read_digits]. rewrite (digit_of_digit c Hc), (IH _ _ Hs).
    cbn [decimal String.length]. do 2 f_equal. lia.
Qed.

Lemma parse_unsigned_digits c s :
  all_digits (String c s) = true ->
  parse_unsigned (String c s) = Some (LDecimal (decimal 0 (String c s)) 0).
Proof.
  intros H. unfold parse_unsigned.
  assert (Hinf : String.eqb (String c s) "Infinity" = false).
  { simpl in H. apply andb_prop in H as [Hc _].
    apply is_digit_cases in Hc. simpl in Hc.
    repeat destruct Hc as [<- | Hc]; try reflexivity. contradiction. }
  rewrite Hinf, (read_digits_all _ 0 0 H).
  cbn [String.length].
  destruct (Z.eqb_spec (0 + Z.of_nat (S (String.length s))) 0); [lia |].
  reflexivity.
Qed.

Lemma trim_end_digits s : all_digits s = true -> trim_end s = s.
Proof.
  induction s as [| c s IH]; [reflexivity |].
  intros H. simpl in H. apply andb_prop in H as [Hc Hs].
  cbn [trim_end]. rewrite (IH Hs), (is_digit_not_white c Hc).
  destruct s; reflexivity.
Qed.

Lemma trim_digits s : all_digits s = true -> trim s = s.
Proof.
  intros H. unfold trim.
  replace (trim_start s) with s; [apply trim_end_digits; assumption |].
  destruct s as [| c s]; [reflexivity |].
  simpl in H. apply andb_prop in H as [Hc _].
  simpl. rewrite (is_digit_not_white c Hc). reflexivity.
Qed.

(** [Number] of a string of decimal digits is the Number of the
    natural number they spell. *)
Lemma Number_digits c s :
  all_digits (String c s) = true ->
  Number (String c s) = of_Z (decimal 0 (String c s)).
Proof.
  intros H.
  assert (Hval : match parse_unsigned (String c s) with
                 | Some l => literal_value false l
                 | None => NaN
                 end = of_Z (decimal 0 (String c s))).
  { rewrite (parse_unsigned_digits c s H).
    pose proof (decimal_nonneg _ 0 H ltac:(lia)) as Hv.
    unfold literal_value, of_Z.
    destruct (Z.ltb_spec (decimal 0 (String c s)) 0); [lia |].
    rewrite Z.abs_eq by lia.
    change (0 <=? 0) with true. cbv iota.
    change (10 ^ 0) with 1. rewrite Z.mul_1_r. reflexivity. }
  unfold Number. rewrite (trim_digits _ H).
  pose proof H as H'. simpl in H'. apply andb_prop in H' as [Hc Hs].
  apply is_digit_cases in Hc. simpl in Hc.
  repeat destruct Hc as [<- | Hc]; try contradiction; try exact Hval.
  destruct s as [| c' s']; [exact Hval |].
  simpl in Hs. apply andb_prop in Hs as [Hc' _].
  apply is_digit_cases in Hc'. simpl in Hc'.
  repeat destruct Hc' as [<- | Hc']; try contradiction; exact Hval.
Qed.

(** What the handler reads from a well-formed token. *)
Lemma well_formed_token M :
  well_formed_month_token M = true ->
  Boolean M = true
  /\ yearNum_of M = number (of_Z (token_year M))
  /\ monthNum_of M = number (of_Z (token_month M))
  /\ 0 <= token_year M < 10000
  /\ 1 <= token_month M <= 12.
Proof.
  destruct M as [| y1 [| y2 [| y3 [| y4 [| sep [| m1 [| m2 [| c M]]]]]]]];
    try discriminate.
  unfold well_formed_month_token. intros H.
  repeat match type of H with
         | (_ && _)%bool = true => apply andb_prop in H as [H ?]
         end.
  repeat match goal with
         | H : (_ <=? _) = true |- _ => apply Z.leb_le in H
         end.
  match goal with
  | H : Ascii.eqb sep _ = true |- _ => apply Ascii.eqb_eq in H; subst sep
  end.
  split; [reflexivity |].
  assert (Hsplit :
    split "-" (String y1 (String y2 (String y3 (String y4
      (String "-" (String m1 (String m2 EmptyString)))))))
    = [String y1 (String y2 (String y3 (String y4 EmptyString)));
       String m1 (String m2 EmptyString)]).
  { repeat first
      [ rewrite split_other by (apply is_digit_not_hyphen; assumption)
      | rewrite split_separator ].
    reflexivity. }
  unfold yearNum_of, monthNum_of. rewrite Hsplit.
  split; [| split; [| split]].
  - cbn [map element nth_error].
    rewrite Number_digits
      by (cbn [all_digits];
          repeat match goal with
                 | Hd : is_digit ?c = true |- context [is_digit ?c] =>
                     rewrite Hd
                 end; reflexivity).
    do 2 f_equal. cbn [decimal token_year]. ring.
  - cbn [map element nth_error].
    rewrite Number_digits
      by (cbn [all_digits];
          repeat match goal with
                 | Hd : is_digit ?c = true |- context [is_digit ?c] =>
                     rewrite Hd
                 end; reflexivity).
    do 2 f_equal. cbn [decimal token_month]. ring.
  - unfold token_year.
    repeat match goal with
           | H : is_digit _ = true |- _ => apply is_digit_value in H
           end. lia.
  - assumption || (split; assumption).
Qed.

Lemma strict_eq_NaN_r x : strict_eq x NaN = false.
Proof. destruct x; reflexivity. Qed.

Lemma strict_eq_NaN_l x : strict_eq NaN x = false.
Proof. reflexivity. Qed.

Lemma of_Z_Finite z :
  0 <= z < 2 ^ 53 -> exists m e, of_Z z = Finite m e.
Proof.
  intros Hz. destruct (Z.eq_dec z 0) as [-> | ?].
  - rewrite of_Z_0. eauto.
  - rewrite of_Z_small by lia. eauto.
Qed.

(** [===] between the Numbers of two integers, one of them a natural
    number below [2^53], is equality of the integers. *)
Lemma strict_eq_of_Z a b :
  0 <= b < 2 ^ 53 -> (strict_eq (of_Z a) (of_Z b) = true <-> a = b).
Proof.
  intros Hb. destruct (of_Z_Finite b Hb) as (mb & eb & Hofb). split.
  - intros H. apply (of_Z_inj_small a b Hb).
    pose proof (of_Z_canonical a) as Ha.
    pose proof (of_Z_canonical b) as Hcb.
    rewrite Hofb in *.
    destruct (of_Z a) as [| s | ma ea]; try discriminate H.
    destruct (strict_eq_canonical _ _ _ _ Ha Hcb H). congruence.
  - intros ->. rewrite Hofb. apply strict_eq_refl_Finite.
Qed.

Lemma sub_canonical x y : canonical_number (sub x y).
Proof.
  destruct x as [| s | m1 e1], y as [| s' | m2 e2]; unfold sub;
    try exact I.
  - destruct (Bool.eqb s s'); exact I.
  - cbv zeta.
    eapply round_scaled_canonical; [| | reflexivity]; [| lia].
    apply Z.mul_nonneg_nonneg; [apply Z.abs_nonneg |].
    apply Z.pow_nonneg. lia.
Qed.

Lemma sub_month Mo :
  1 <= Mo <= 12 -> sub (of_Z Mo) (of_Z 1) = of_Z (Mo - 1).
Proof.
  intros H.
  assert (Hc : Mo = 1 \/ Mo = 2 \/ Mo = 3 \/ Mo = 4 \/ Mo = 5 \/ Mo = 6
               \/ Mo = 7 \/ Mo = 8 \/ Mo = 9 \/ Mo = 10 \/ Mo = 11
               \/ Mo = 12) by lia.
  repeat destruct Hc as [-> | Hc]; try subst Mo; vm_compute; reflexivity.
Qed.

End MonthFacts.

Module MalformedFacts.
Import JS NumberFacts ParseFacts MonthFacts.

Lemma monthNum_canonical token :
  canonical_number (ToNumber (monthNum_of token)).
Proof.
  unfold monthNum_of, element.
  destruct (nth_error (map Number (split "-" token)) 1) as [n |] eqn:Hn;
    [| exact I].
  simpl. apply nth_error_In in Hn. apply in_map_iff in Hn as (s & <- & _).
  apply Number_canonical.
Qed.

(** A month Number that is none of 1 to 12 is the month of no date. *)
Lemma month_outside_range x k :
  canonical_number x -> 0 <= k <= 11 ->
  existsb (fun k' => strict_eq x (of_Z k'))
          [1; 2; 3; 4; 5; 6; 7; 8; 9; 10; 11; 12] = false ->
  strict_eq (of_Z k) (sub x (of_Z 1)) = false.
Proof.
  intros Hx Hk Hnone.
  destruct (strict_eq (of_Z k) (sub x (of_Z 1))) eqn:Heq; [| reflexivity].
  exfalso.
  assert (Hk53 : 0 <= k < 2 ^ 53) by (change (2 ^ 53) with 9007199254740992; lia).
  destruct (of_Z_Finite k Hk53) as (mk & ek & Hofk).
  pose proof (of_Z_canonical k) as Hck.
  pose proof (sub_canonical x (of_Z 1)) as Hcs.
  rewrite Hofk in Heq, Hck.
  destruct (sub x (of_Z 1)) as [| s | m e] eqn:Hsub; try discriminate Heq.
  destruct (strict_eq_canonical _ _ _ _ Hck Hcs Heq) as [-> ->].
  rewrite <- Hofk in Hsub.
  apply sub_one_integer in Hsub;
    [| assumption | change (2 ^ 52) with 4503599627370496; lia].
  assert (Hin : In (k + 1) [1; 2; 3; 4; 5; 6; 7; 8; 9; 10; 11; 12])
    by (simpl; lia).
  assert (Htrue : existsb (fun k' => strict_eq x (of_Z k'))
                    [1; 2; 3; 4; 5; 6; 7; 8; 9; 10; 11; 12] = true).
  { apply existsb_exists. exists (k + 1). split; [exact Hin |].
    rewrite Hsub. apply strict_eq_of_Z; [| reflexivity].
    change (2 ^ 53) with 9007199254740992. lia. }
  congruence.
Qed.

(** The month test of the handler fails on every event when the token
    is malformed. *)
Lemma in_month_malformed LocalTZA token event :
  malformed_month token = true ->
  in_month LocalTZA (yearNum_of token) (monthNum_of token) event = false.
Proof.
  unfold malformed_month. intros H.
  apply andb_prop in H as [_ H].
  unfold in_month. cbv zeta.
  apply orb_prop in H as [H | H]; [apply orb_prop in H as [H | H] |].
  - destruct (yearNum_of token) as [| n]; [reflexivity |].
    destruct n; try discriminate H. cbn [strict_equals].
    rewrite strict_eq_NaN_r. reflexivity.
  - destruct (ToNumber (monthNum_of token)); try discriminate H.
    change (sub NaN (of_Z 1)) with NaN. cbn [strict_equals].
    rewrite strict_eq_NaN_r. apply andb_false_r.
  - apply negb_true_iff in H.
    apply andb_false_intro2. cbn [strict_equals].
    destruct (new_Date (Event.startTime event)) as [t |]; [| reflexivity].
    cbn [getMonth].
    apply month_outside_range;
      [apply monthNum_canonical | apply MonthFromTime_range | exact H].
Qed.

Lemma GET_malformed store LocalTZA request token :
  get (searchParams request) "month" = Some token ->
  malformed_month token = true ->
  GET store LocalTZA request = NextResponse_json [].
Proof.
  intros Hget Hbad. rewrite RouteFacts.GET_filter, Hget. f_equal.
  apply ListFacts.filter_none. intros e _.
  unfold month_matches.
  assert (Hne : Boolean token = true).
  { unfold malformed_month in Hbad. apply andb_prop in Hbad as [Hne _].
    exact Hne. }
  rewrite Hne, in_month_malformed by assumption. reflexivity.
Qed.

End MalformedFacts.

(** ** The dates of the calendar *)

Module DateFacts.
Import JS.

Lemma DayFromYear_guess d :
  let y := 1970 + (d * 400) / 146097 in
  DayFromYear (y - 1) <= d < DayFromYear (y + 2).
Proof.
  intros y. unfold DayFromYear. subst y.
  Z.div_mod_to_equations. lia.
Qed.

(** [YearFromTime t] is the year [t] falls in. *)
Lemma YearFromTime_spec t :
  TimeFromYear (YearFromTime t) <= t < TimeFromYear (YearFromTime t + 1).
Proof.
  pose proof (DayFromYear_guess (Day t)) as H. cbv zeta in H.
  unfold YearFromTime, TimeFromYear.
  set (y := 1970 + Day t * 400 / 146097) in *.
  assert (Hd : msPerDay * Day t <= t < msPerDay * (Day t + 1)).
  { unfold Day, msPerDay. Z.div_mod_to_equations. lia. }
  replace (y + 2) with (y + 1 + 1) in H by lia.
  unfold msPerDay in *.
  destruct (Z.ltb_spec (Day t) (DayFromYear y));
    [| destruct (Z.leb_spec (DayFromYear (y + 1)) (Day t))].
  - replace (y - 1 + 1) with y by lia. lia.
  - lia.
  - lia.
Qed.

End DateFacts.

(** The sample store under the example queries of the specification,
    and an event that starts late on 31 October UTC: a November event
    for a host on Central European Time, an October one for a host on
    UTC. *)
Example sample_queries :
  body (GET Sample.store Sample.CET (query (Some "2025-11") None None))
  = [Sample.event1]
  /\ body (GET Sample.store Sample.CET (query None (Some "jazz") None))
     = [Sample.event2]
  /\ body (GET Sample.store Sample.CET (query (Some "2025-11") (Some "jazz") None))
     = []
  /\ body (GET [Sample.late_event] Sample.CET (query (Some "2025-11") None None))
     = [Sample.late_event]
  /\ body (GET [Sample.late_event] Sample.UTC (query (Some "2025-11") None None))
     = [].
Proof. vm_compute. repeat split. Qed.

(** * The claims *)

Import ListFacts StringFacts RouteFacts.

(** C1. For every event of the store and every well-formed month token
    YYYY-MM, the query with only [month] set to the token includes the
    event exactly when the calendar year and month of its start, in the
    time zone of the host, are the year and the month of the token. *)
Theorem month_filter_includes store LocalTZA M E :
  well_formed_month_token M = true ->
  In E (body (GET store LocalTZA (query (Some M) None None)))
  <-> In E store
      /\ calendar_month LocalTZA (Event.startTime E)
         = Some (token_year M, token_month M).
Proof.
  intros HM.
  destruct (MonthFacts.well_formed_token M HM)
    as (Hne & Hy & Hm & HY & HMo).
  rewrite body_GET_query, filter_In.
  unfold month_matches. rewrite Hne, Hy, Hm.
  change (genres_match (slugs_of None) E) with true.
  change (venues_match (slugs_of None) E) with true.
  rewrite !andb_true_r.
  unfold in_month, calendar_month, JS.new_Date. cbv zeta.
  cbn [JS.ToNumber JS.strict_equals].
  rewrite (MonthFacts.sub_month _ HMo).
  destruct (Z.abs (Event.startTime E) <=? 8640000000000000).
  - cbn [JS.getFullYear JS.getMonth].
    rewrite andb_true_iff.
    rewrite !MonthFacts.strict_eq_of_Z
      by (change (2 ^ 53) with 9007199254740992; lia).
    split.
    + intros (HE & Hyear & Hmonth). split; [assumption |].
      rewrite Hyear, Hmonth. do 2 f_equal. lia.
    + intros (HE & Heq). inversion Heq as [[Hyear Hmonth]].
      split; [assumption |]. split; [reflexivity | lia].
  - cbn [JS.getFullYear JS.getMonth JS.strict_eq andb].
    split; intros (_ & Habs); discriminate Habs.
Qed.

Lemma month_filter_includes_witness :
  well_formed_month_token "2025-11" = true
  /\ (In Sample.event1
         (body (GET Sample.store Sample.CET (query (Some "2025-11") None None)))
      <-> In Sample.event1 Sample.store
          /\ calendar_month Sample.CET (Event.startTime Sample.event1)
             = Some (token_year "2025-11", token_month "2025-11")).
Proof.
  split; [reflexivity |].
  apply (month_filter_includes Sample.store Sample.CET "2025-11" Sample.event1).
  reflexivity.
Defined.

(** C2, as the handler has it.  For every malformed month token (not
    empty; the year or the month not a number, or the month none of 1
    to 12) the query answers with a 200 response whose list is empty:
    it matches nothing, and it is no error result. *)
Theorem malformed_month_matches_nothing store LocalTZA request M :
  get (searchParams request) "month" = Some M ->
  malformed_month M = true ->
  GET store LocalTZA request = NextResponse_json []
  /\ is_error (GET store LocalTZA request) = false.
Proof.
  intros Hget Hbad.
  rewrite (MalformedFacts.GET_malformed store LocalTZA request M Hget Hbad).
  split; reflexivity.
Qed.

Lemma malformed_month_matches_nothing_witness :
  get (searchParams (query (Some "abc") (Some "rock") None)) "month"
  = Some "abc"
  /\ malformed_month "abc" = true
  /\ GET Sample.store Sample.CET (query (Some "abc") (Some "rock") None)
     = NextResponse_json []
  /\ is_error (GET Sample.store Sample.CET
                   (query (Some "abc") (Some "rock") None)) = false.
Proof.
  split; [reflexivity |]. split; [vm_compute; reflexivity |].
  apply (malformed_month_matches_nothing Sample.store Sample.CET
           (query (Some "abc") (Some "rock") None) "abc");
    [reflexivity | vm_compute; reflexivity].
Defined.

(** C2 as stated fails: on the malformed token 2025-13 the query over
    the sample store is a 200 response with an empty list, not an
    error result. *)
Lemma malformed_month_is_no_error :
  malformed_month "2025-13" = true
  /\ GET Sample.store Sample.CET (query (Some "2025-13") None None)
     = {| status := 200; body := [] |}
  /\ is_error (GET Sample.store Sample.CET (query (Some "2025-13") None None))
     <> true.
Proof.
  split; [vm_compute; reflexivity |].
  split; [vm_compute; reflexivity |].
  vm_compute. discriminate.
Qed.

(** C3. For every non-empty set of genre slugs and every event of the
    store, the query with only [genres] set to the slugs includes the
    event exactly when one of the genres of the event has its slug in
    the set. *)
Theorem genres_filter_includes store LocalTZA G E :
  G <> [] -> forallb slug_ok G = true ->
  In E (body (GET store LocalTZA (query None (Some (comma_separated G)) None)))
  <-> In E store
      /\ exists genre, In genre (Event.genres E) /\ In (Genre.slug genre) G.
Proof.
  intros HG Hok.
  rewrite body_GET_query, filter_In.
  cbn [month_matches slugs_of]. rewrite (split_comma_separated G Hok).
  change (venues_match [] E) with true. rewrite andb_true_r, andb_true_l.
  unfold genres_match.
  destruct G as [| g G]; [contradiction |]. cbn [List.length Nat.ltb Nat.leb].
  unfold JS.some. rewrite existsb_exists.
  split; intros (HE & genre & Hin & Hslug); (split; [assumption |]);
    exists genre; (split; [assumption |]); apply includes_In; assumption.
Qed.

Lemma genres_filter_includes_witness :
  ["jazz"; "folk"] <> []
  /\ forallb slug_ok ["jazz"; "folk"] = true
  /\ (In Sample.event2
         (body (GET Sample.store Sample.CET
                    (query None (Some (comma_separated ["jazz"; "folk"])) None)))
      <-> In Sample.event2 Sample.store
          /\ exists genre, In genre (Event.genres Sample.event2)
                           /\ In (Genre.slug genre) ["jazz"; "folk"]).
Proof.
  split; [discriminate |]. split; [reflexivity |].
  apply (genres_filter_includes Sample.store Sample.CET ["jazz"; "folk"]
           Sample.event2); [discriminate | reflexivity].
Defined.

(** C4. For every non-empty set of venue slugs and every event of the
    store, the query with only [venues] set to the slugs includes the
    event exactly when the slug of its venue is in the set. *)
Theorem venues_filter_includes store LocalTZA V E :
  V <> [] -> forallb slug_ok V = true ->
  In E (body (GET store LocalTZA (query None None (Some (comma_separated V)))))
  <-> In E store /\ In (Venue.slug (Event.venue E)) V.
Proof.
  intros HV Hok.
  rewrite body_GET_query, filter_In.
  cbn [month_matches slugs_of]. rewrite (split_comma_separated V Hok).
  change (genres_match [] E) with true. rewrite !andb_true_l.
  unfold venues_match.
  destruct V as [| v V]; [contradiction |]. cbn [List.length Nat.ltb Nat.leb].
  rewrite includes_In. reflexivity.
Qed.

Lemma venues_filter_includes_witness :
  ["pustervik"] <> []
  /\ forallb slug_ok ["pustervik"] = true
  /\ (In Sample.event1
         (body (GET Sample.store Sample.CET
                    (query None None (Some (comma_separated ["pustervik"])))))
      <-> In Sample.event1 Sample.store
          /\ In (Venue.slug (Event.venue Sample.event1)) ["pustervik"]).
Proof.
  split; [discriminate |]. split; [reflexivity |].
  apply (venues_filter_includes Sample.store Sample.CET ["pustervik"]
           Sample.event1); [discriminate | reflexivity].
Defined.

(** C5. For every month token, set of genre slugs and set of venue
    slugs, the query with all three set is the intersection, taken as
    a sublist of the store, of the three queries with one of them set. *)
Theorem filters_compose_by_intersection store LocalTZA M G V :
  body (GET store LocalTZA
            (query (Some M) (Some (comma_separated G))
                   (Some (comma_separated V))))
  = intersection store
      (body (GET store LocalTZA (query (Some M) None None)))
      (body (GET store LocalTZA (query None (Some (comma_separated G)) None)))
      (body (GET store LocalTZA (query None None (Some (comma_separated V))))).
Proof.
  rewrite !body_GET_query. unfold intersection.
  apply filter_ext_in. intros e He.
  rewrite !member_filter by assumption.
  change (genres_match (slugs_of None) e) with true.
  change (venues_match (slugs_of None) e) with true.
  change (month_matches LocalTZA None e) with true.
  rewrite !andb_true_r, !andb_true_l. reflexivity.
Qed.

(** C6. The query without parameters is the whole store, in its
    order. *)
Theorem no_parameters_returns_store store LocalTZA :
  GET store LocalTZA (query None None None) = NextResponse_json store.
Proof.
  rewrite GET_filter. f_equal. apply filter_all. reflexivity.
Qed.

(** C7. Whatever the parameters, the list the query returns is a
    subsequence of the store: nothing is sorted again, and two events
    of the result stand in the store in the order they have in the
    result. *)
Theorem result_preserves_store_order store LocalTZA request :
  subsequence (body (GET store LocalTZA request)) store
  /\ forall a b pre mid post,
       body (GET store LocalTZA request)
       = (pre ++ a :: mid ++ b :: post)%list ->
       exists pre' mid' post',
         store = (pre' ++ a :: mid' ++ b :: post')%list.
Proof.
  assert (H : subsequence (body (GET store LocalTZA request)) store).
  { rewrite GET_filter. apply filter_subsequence. }
  split; [exact H |].
  intros a b pre mid post Hbody.
  exact (subsequence_order _ _ H a b pre mid post Hbody).
Qed.

(** C8. Whatever the value of [month], the query ends in a 200 JSON
    response, no fault; and on a malformed token the outcome is fixed:
    two runs over the same store with the same malformed token give
    the same response, whatever else the requests carry and whatever
    the time zone of the host. *)
Theorem malformed_month_is_deterministic store tz1 tz2 request1 request2 M :
  (exists events, GET store tz1 request1 = NextResponse_json events)
  /\ (get (searchParams request1) "month" = Some M ->
      get (searchParams request2) "month" = Some M ->
      malformed_month M = true ->
      GET store tz1 request1 = GET store tz2 request2).
Proof.
  split.
  - eexists. apply GET_filter.
  - intros H1 H2 Hbad.
    rewrite (MalformedFacts.GET_malformed store tz1 request1 M H1 Hbad).
    rewrite (MalformedFacts.GET_malformed store tz2 request2 M H2 Hbad).
    reflexivity.
Qed.

Lemma malformed_month_is_deterministic_witness :
  get (searchParams (query (Some "2025-13") None None)) "month"
  = Some "2025-13"
  /\ get (searchParams (query (Some "2025-13") None (Some "nefertiti")))
         "month" = Some "2025-13"
  /\ malformed_month "2025-13" = true
  /\ GET Sample.store Sample.CET (query (Some "2025-13") None None)
     = GET Sample.store Sample.UTC
           (query (Some "2025-13") None (Some "nefertiti")).
Proof.
  split; [reflexivity |]. split; [reflexivity |].
  split; [vm_compute; reflexivity |].
  apply (proj2 (malformed_month_is_deterministic Sample.store Sample.CET
                  Sample.UTC (query (Some "2025-13") None None)
                  (query (Some "2025-13") None (Some "nefertiti")) "2025-13"));
    [reflexivity | reflexivity | vm_compute; reflexivity].
Defined.

(** C9. With slugs unique in the store, [getEventBySlug] returns the
    event that has the slug when there is one, and the page is the
    page of that event; when no event has the slug it returns the
    explicit absence, and the page is the not-found page. *)
Theorem getEventBySlug_finds_the_event store s :
  NoDup (map Event.slug store) ->
  (forall E, In E store -> Event.slug E = s ->
             getEventBySlug store s = Some E
             /\ EventPage store s = rendered E)
  /\ ((forall E, In E store -> Event.slug E <> s) ->
      getEventBySlug store s = None /\ EventPage store s = notFound).
Proof.
  intros Hnodup.
  assert (Hfound : forall E, In E store -> Event.slug E = s ->
                             getEventBySlug store s = Some E).
  { unfold getEventBySlug.
    induction store as [| e store IH]; intros E HE Hs; [contradiction |].
    simpl in Hnodup. inversion Hnodup as [| x l Hnotin Hnodup']; subst x l.
    simpl. destruct (String.eqb_spec (Event.slug e) s) as [He | He].
    - destruct HE as [-> | HE]; [reflexivity |].
      exfalso. apply Hnotin. rewrite He, <- Hs. apply in_map. assumption.
    - destruct HE as [-> | HE]; [contradiction |].
      apply IH; assumption. }
  assert (Hnone : (forall E, In E store -> Event.slug E <> s) ->
                  getEventBySlug store s = None).
  { unfold getEventBySlug. intros Hno.
    destruct (find (fun event => String.eqb (Event.slug event) s) store)
      as [e |] eqn:Hfind; [| reflexivity].
    apply find_some in Hfind as [Hin Heq].
    apply String.eqb_eq in Heq. exfalso. exact (Hno e Hin Heq). }
  split.
  - intros E HE Hs. unfold EventPage. rewrite (Hfound E HE Hs). auto.
  - intros Hno. unfold EventPage. rewrite (Hnone Hno). auto.
Qed.

Lemma getEventBySlug_finds_the_event_witness :
  NoDup (map Event.slug Sample.store)
  /\ getEventBySlug Sample.store "jazz-at-nefertiti" = Some Sample.event2
  /\ EventPage Sample.store "jazz-at-nefertiti" = rendered Sample.event2.
Proof.
  assert (Hnodup : NoDup (map Event.slug Sample.store)).
  { repeat constructor; simpl; intuition discriminate. }
  split; [exact Hnodup |].
  apply (proj1 (getEventBySlug_finds_the_event Sample.store
                  "jazz-at-nefertiti" Hnodup) Sample.event2);
    [simpl; auto | reflexivity].
Defined.

(** C10. A [genres] or [venues] parameter that is present but holds
    no slug (the empty string, or commas only) constrains nothing: the
    response is the one the request gets with the parameter left out. *)
Theorem empty_slug_parameter_is_absent store LocalTZA month genres venues s :
  only_commas s = true ->
  GET store LocalTZA (query month (Some s) venues)
  = GET store LocalTZA (query month None venues)
  /\ GET store LocalTZA (query month genres (Some s))
     = GET store LocalTZA (query month genres None).
Proof.
  intros Hs.
  rewrite !GET_filter, !get_query_month, !get_query_genres, !get_query_venues.
  cbn [slugs_of]. rewrite (split_only_commas s Hs). split; reflexivity.
Qed.

Lemma empty_slug_parameter_is_absent_witness :
  only_commas ",," = true
  /\ GET Sample.store Sample.CET (query (Some "2025-11") (Some ",,") None)
     = GET Sample.store Sample.CET (query (Some "2025-11") None None)
  /\ GET Sample.store Sample.CET
         (query (Some "2025-11") (Some "rock") (Some ",,"))
     = GET Sample.store Sample.CET (query (Some "2025-11") (Some "rock") None).
Proof.
  split; [reflexivity |].
  apply (empty_slug_parameter_is_absent Sample.store Sample.CET
           (Some "2025-11") (Some "rock") None ",,").
  reflexivity.
Defined.

(** * Further properties of the handler and of the home page *)

Module TokenFacts.
Import JS NumberFacts ParseFacts MonthFacts MalformedFacts.

Lemma split_lacks sep s : lacks sep s = true -> split sep s = [s].
Proof.
  induction s as [| c s IH]; simpl; [reflexivity |].
  intros H. apply andb_prop in H as [Hc Hs].
  apply negb_true_iff in Hc. rewrite Hc, (IH Hs). reflexivity.
Qed.

Lemma split_append_lacks sep s rest :
  lacks sep s = true ->
  split sep (s ++ String sep rest) = s :: split sep rest.
Proof.
  induction s as [| c s IH]; simpl.
  - intros _. rewrite Ascii.eqb_refl. reflexivity.
  - intros H. apply andb_prop in H as [Hc Hs].
    apply negb_true_iff in Hc. rewrite Hc, (IH Hs). reflexivity.
Qed.

Lemma all_digits_lacks_hyphen s : all_digits s = true -> lacks "-" s = true.
Proof.
  induction s as [| c s IH]; simpl; [reflexivity |].
  intros H. apply andb_prop in H as [Hc Hs].
  rewrite (is_digit_not_hyphen c Hc), (IH Hs). reflexivity.
Qed.

Lemma JS_split_pair y rest :
  lacks "-" y = true -> split "-" (y ++ String "-" rest) = y :: split "-" rest.
Proof. apply split_append_lacks. Qed.

Lemma Boolean_append s c rest : Boolean (s ++ String c rest) = true.
Proof. destruct s; reflexivity. Qed.

(** The two Numbers of a token made of a year, a hyphen and a month. *)
Lemma yearNum_of_pair y m :
  lacks "-" y = true -> yearNum_of (y ++ String "-" m) = number (Number y).
Proof.
  intros Hy. unfold yearNum_of. rewrite (split_append_lacks _ _ _ Hy).
  reflexivity.
Qed.

Lemma monthNum_of_pair y m :
  lacks "-" y = true -> lacks "-" m = true ->
  monthNum_of (y ++ String "-" m) = number (Number m).
Proof.
  intros Hy Hm. unfold monthNum_of.
  rewrite (split_append_lacks _ _ _ Hy), (split_lacks _ _ Hm).
  reflexivity.
Qed.

(** The month test on integers: the month of a date, from 0, against a
    month number of the token less one. *)
Lemma month_test mo Mo :
  0 <= mo <= 11 -> 0 <= Mo < 2 ^ 53 ->
  strict_eq (of_Z mo) (sub (of_Z Mo) (of_Z 1)) = true <-> mo + 1 = Mo.
Proof.
  intros Hmo HMo.
  assert (H53 : 2 ^ 53 = 9007199254740992) by reflexivity.
  destruct (Z_le_gt_dec 1 Mo) as [H1 | H1];
    [destruct (Z_le_gt_dec Mo 12) as [H12 | H12] |].
  - rewrite (sub_month Mo) by lia.
    rewrite strict_eq_of_Z by lia. lia.
  - split; [| lia]. intros H. exfalso.
    rewrite month_outside_range in H;
      [discriminate | apply of_Z_canonical | lia |].
    destruct (existsb _ _) eqn:Hex; [| reflexivity].
    apply existsb_exists in Hex as (k & Hin & Hk).
    apply strict_eq_of_Z in Hk; [| simpl in Hin; lia].
    simpl in Hin. lia.
  - split; [| lia]. intros H. exfalso.
    rewrite month_outside_range in H;
      [discriminate | apply of_Z_canonical | lia |].
    destruct (existsb _ _) eqn:Hex; [| reflexivity].
    apply existsb_exists in Hex as (k & Hin & Hk).
    apply strict_eq_of_Z in Hk; [| simpl in Hin; lia].
    simpl in Hin. lia.
Qed.

Lemma strict_equals_NaN v : strict_equals NaN v = false.
Proof. destruct v; reflexivity. Qed.

End TokenFacts.

Import TokenFacts.

(** X1. The month filter reads the year and the month of a token as
    decimal numbers, whatever their width: for a year and a month given
    as strings of digits, an event is included exactly when the
    calendar year and month of its start are the two numbers.  So
    2025-7 and 02025-07 select what 2025-07 selects, and a month
    outside 1 to 12 selects nothing. *)
Theorem month_filter_reads_decimals store LocalTZA y m E :
  all_digits y = true -> y <> EmptyString ->
  all_digits m = true -> m <> EmptyString ->
  decimal 0 y < 2 ^ 53 -> decimal 0 m < 2 ^ 53 ->
  In E (body (GET store LocalTZA (query (Some (y ++ "-" ++ m)) None None)))
  <-> In E store
      /\ calendar_month LocalTZA (Event.startTime E)
         = Some (decimal 0 y, decimal 0 m).
Proof.
  intros Hy Hyne Hm Hmne HY HM.
  pose proof (MonthFacts.decimal_nonneg y 0 Hy ltac:(lia)) as HY0.
  pose proof (MonthFacts.decimal_nonneg m 0 Hm ltac:(lia)) as HM0.
  change (y ++ "-" ++ m) with (y ++ String "-" m).
  rewrite body_GET_query, filter_In.
  unfold month_matches.
  rewrite Boolean_append.
  rewrite yearNum_of_pair, monthNum_of_pair
    by (apply all_digits_lacks_hyphen; assumption).
  destruct y as [| cy y']; [contradiction |].
  destruct m as [| cm m']; [contradiction |].
  rewrite (MonthFacts.Number_digits cy y' Hy).
  rewrite (MonthFacts.Number_digits cm m' Hm).
  set (Y := decimal 0 (String cy y')) in *.
  set (Mo := decimal 0 (String cm m')) in *.
  change (genres_match (slugs_of None) E) with true.
  change (venues_match (slugs_of None) E) with true.
  rewrite !andb_true_r.
  unfold in_month, calendar_month, JS.new_Date. cbv zeta.
  cbn [JS.ToNumber JS.strict_equals].
  destruct (Z.abs (Event.startTime E) <=? 8640000000000000).
  - cbn [JS.getFullYear JS.getMonth].
    pose proof (ParseFacts.MonthFromTime_range
                  (JS.LocalTime LocalTZA (Event.startTime E))) as Hr.
    rewrite andb_true_iff.
    rewrite MonthFacts.strict_eq_of_Z by lia.
    rewrite month_test by lia.
    split.
    + intros (HE & Hyear & Hmonth). split; [assumption |].
      rewrite Hyear, Hmonth. reflexivity.
    + intros (HE & Heq). inversion Heq as [[Hyear Hmonth]].
      split; [assumption |]. split; reflexivity.
  - cbn [JS.getFullYear JS.getMonth JS.strict_eq andb].
    split; intros (_ & Habs); discriminate Habs.
Qed.

Lemma month_filter_reads_decimals_witness :
  all_digits "2025" = true /\ "2025" <> EmptyString
  /\ all_digits "7" = true /\ "7" <> EmptyString
  /\ decimal 0 "2025" < 2 ^ 53 /\ decimal 0 "7" < 2 ^ 53
  /\ (In Sample.event1
         (body (GET Sample.store Sample.CET (query (Some "2025-7") None None)))
      <-> In Sample.event1 Sample.store
          /\ calendar_month Sample.CET (Event.startTime Sample.event1)
             = Some (decimal 0 "2025", decimal 0 "7")).
Proof.
  split; [reflexivity |]. split; [discriminate |].
  split; [reflexivity |]. split; [discriminate |].
  split; [reflexivity |]. split; [reflexivity |].
  apply (month_filter_reads_decimals Sample.store Sample.CET "2025" "7"
           Sample.event1);
    first [reflexivity | discriminate].
Defined.

(** X2. Only the first two parts of a month token count: whatever
    follows a second hyphen is ignored, so a full date such as
    2025-11-05 selects what 2025-11 selects. *)
Theorem month_token_tail_is_ignored store LocalTZA y m tail genres venues :
  lacks "-" y = true -> lacks "-" m = true ->
  GET store LocalTZA (query (Some (y ++ "-" ++ m ++ "-" ++ tail)) genres venues)
  = GET store LocalTZA (query (Some (y ++ "-" ++ m)) genres venues).
Proof.
  intros Hy Hm.
  change (y ++ "-" ++ m ++ "-" ++ tail)
    with (y ++ String "-" (m ++ String "-" tail)).
  change (y ++ "-" ++ m) with (y ++ String "-" m).
  rewrite !GET_filter, !get_query_month, !get_query_genres, !get_query_venues.
  f_equal. apply filter_ext. intros e. do 2 f_equal.
  unfold month_matches. rewrite !Boolean_append.
  unfold yearNum_of, monthNum_of.
  rewrite !(JS_split_pair y) by assumption.
  rewrite (split_append_lacks _ _ _ Hm), (split_lacks _ _ Hm).
  reflexivity.
Qed.

Lemma month_token_tail_is_ignored_witness :
  lacks "-" "2025" = true /\ lacks "-" "11" = true
  /\ GET Sample.store Sample.CET
         (query (Some ("2025" ++ "-" ++ "11" ++ "-" ++ "05")) (Some "rock") None)
     = GET Sample.store Sample.CET
           (query (Some ("2025" ++ "-" ++ "11")) (Some "rock") None).
Proof.
  split; [reflexivity |]. split; [reflexivity |].
  apply (month_token_tail_is_ignored Sample.store Sample.CET "2025" "11" "05"
           (Some "rock") None); reflexivity.
Defined.

(** X3. Under a month filter only events with a valid start are
    returned: an event whose start is outside the range of dates
    passes no month token, though it is returned when no month is
    asked for. *)
Theorem month_filter_needs_valid_start store LocalTZA request token E :
  get (searchParams request) "month" = Some token ->
  JS.Boolean token = true ->
  In E (body (GET store LocalTZA request)) ->
  Z.abs (Event.startTime E) <= 8640000000000000.
Proof.
  intros Hget Hne HE.
  rewrite GET_filter, Hget in HE. cbn [body NextResponse_json] in HE.
  apply filter_In in HE as [_ HE].
  apply andb_prop in HE as [HE _]. apply andb_prop in HE as [HE _].
  unfold month_matches in HE. rewrite Hne in HE.
  unfold in_month, JS.new_Date in HE. cbv zeta in HE.
  destruct (Z.leb_spec (Z.abs (Event.startTime E)) 8640000000000000);
    [assumption |].
  cbn [JS.getFullYear] in HE. rewrite strict_equals_NaN in HE.
  discriminate HE.
Qed.

Lemma month_filter_needs_valid_start_witness :
  get (searchParams (query (Some "2025-11") None None)) "month"
  = Some "2025-11"
  /\ JS.Boolean "2025-11" = true
  /\ In Sample.event1
        (body (GET Sample.store Sample.CET (query (Some "2025-11") None None)))
  /\ Z.abs (Event.startTime Sample.event1) <= 8640000000000000.
Proof.
  assert (Hin : In Sample.event1
            (body (GET Sample.store Sample.CET
                       (query (Some "2025-11") None None)))).
  { vm_compute. left. reflexivity. }
  split; [reflexivity |]. split; [reflexivity |]. split; [exact Hin |].
  apply (month_filter_needs_valid_start Sample.store Sample.CET
           (query (Some "2025-11") None None) "2025-11" Sample.event1);
    [reflexivity | reflexivity | exact Hin].
Defined.

Module SlugFacts.
Import JS ListFacts StringFacts.

Lemma includes_same_members l1 l2 s :
  (forall x, In x l1 <-> In x l2) -> includes l1 s = includes l2 s.
Proof.
  intros H. apply eq_true_iff_eq. rewrite !includes_In. apply H.
Qed.

Lemma nonempty_same_members {A : Type} (l1 l2 : list A) :
  (forall x, In x l1 <-> In x l2) ->
  (0 <? List.length l1)%nat = (0 <? List.length l2)%nat.
Proof.
  intros H. destruct l1 as [| a l1], l2 as [| b l2]; try reflexivity.
  - exfalso. apply (proj2 (H b)). left. reflexivity.
  - exfalso. apply (proj1 (H a)). left. reflexivity.
Qed.

Lemma existsb_pointwise {A : Type} (p q : A -> bool) l :
  (forall x, p x = q x) -> existsb p l = existsb q l.
Proof.
  intros H. induction l as [| x l IH]; simpl; [reflexivity |].
  rewrite H, IH. reflexivity.
Qed.

Lemma genres_match_same_members l1 l2 e :
  (forall x, In x l1 <-> In x l2) -> genres_match l1 e = genres_match l2 e.
Proof.
  intros H. unfold genres_match, some.
  rewrite (nonempty_same_members l1 l2 H).
  destruct (0 <? List.length l2)%nat; [| reflexivity].
  apply existsb_pointwise. intros g. apply includes_same_members. exact H.
Qed.

Lemma venues_match_same_members l1 l2 e :
  (forall x, In x l1 <-> In x l2) -> venues_match l1 e = venues_match l2 e.
Proof.
  intros H. unfold venues_match.
  rewrite (nonempty_same_members l1 l2 H).
  destruct (0 <? List.length l2)%nat; [| reflexivity].
  apply includes_same_members. exact H.
Qed.

Lemma includes_app l1 l2 s :
  includes (l1 ++ l2) s = includes l1 s || includes l2 s.
Proof. unfold includes. apply existsb_app. Qed.

Lemma nonempty_length {A : Type} (l : list A) :
  l <> [] -> (0 <? List.length l)%nat = true.
Proof. destruct l; [contradiction | reflexivity]. Qed.

Lemma existsb_orb {A : Type} (p q : A -> bool) l :
  existsb (fun x => p x || q x) l = existsb p l || existsb q l.
Proof.
  induction l as [| x l IH]; simpl; [reflexivity |].
  rewrite IH. destruct (p x), (q x), (existsb p l); reflexivity.
Qed.

Lemma filter_weaken {A : Type} (p q : A -> bool) l :
  (forall x, p x = true -> q x = true) ->
  subsequence (filter p l) (filter q l).
Proof.
  intros H. induction l as [| x l IH]; simpl; [constructor |].
  destruct (p x) eqn:Hp.
  - rewrite (H x Hp). apply subsequence_keep. assumption.
  - destruct (q x); [apply subsequence_skip |]; assumption.
Qed.

Lemma subsequence_length {A : Type} (l1 l2 : list A) :
  subsequence l1 l2 -> (List.length l1 <= List.length l2)%nat.
Proof. induction 1; simpl; lia. Qed.

End SlugFacts.

Import SlugFacts.

(** X4. The [genres] and [venues] parameters are read as sets: two
    requests whose slug lists have the same members, in whatever order
    and however often repeated, get the same response. *)
Theorem slug_parameters_are_sets store LocalTZA month G1 G2 V1 V2 :
  forallb slug_ok G1 = true -> forallb slug_ok G2 = true ->
  forallb slug_ok V1 = true -> forallb slug_ok V2 = true ->
  (forall s, In s G1 <-> In s G2) ->
  (forall s, In s V1 <-> In s V2) ->
  GET store LocalTZA
      (query month (Some (comma_separated G1)) (Some (comma_separated V1)))
  = GET store LocalTZA
        (query month (Some (comma_separated G2)) (Some (comma_separated V2))).
Proof.
  intros HG1 HG2 HV1 HV2 HG HV.
  rewrite !GET_filter, !get_query_month, !get_query_genres, !get_query_venues.
  cbn [slugs_of]. rewrite !split_comma_separated by assumption.
  f_equal. apply filter_ext. intros e.
  rewrite (genres_match_same_members G1 G2 e HG).
  rewrite (venues_match_same_members V1 V2 e HV). reflexivity.
Qed.

Lemma slug_parameters_are_sets_witness :
  forallb slug_ok ["rock"; "jazz"] = true
  /\ forallb slug_ok ["jazz"; "rock"; "jazz"] = true
  /\ forallb slug_ok ["pustervik"] = true
  /\ forallb slug_ok ["pustervik"; "pustervik"] = true
  /\ GET Sample.store Sample.CET
         (query None (Some (comma_separated ["rock"; "jazz"]))
                (Some (comma_separated ["pustervik"])))
     = GET Sample.store Sample.CET
           (query None (Some (comma_separated ["jazz"; "rock"; "jazz"]))
                  (Some (comma_separated ["pustervik"; "pustervik"]))).
Proof.
  repeat (split; [reflexivity |]).
  apply (slug_parameters_are_sets Sample.store Sample.CET None
           ["rock"; "jazz"] ["jazz"; "rock"; "jazz"]
           ["pustervik"] ["pustervik"; "pustervik"]);
    try reflexivity; intros s; simpl; tauto.
Defined.

(** X5. Within a dimension the slugs are alternatives: with the other
    parameters fixed, the query for the slugs of two non-empty lists
    together returns an event exactly when the query for one of the
    lists does; for genres and for venues alike. *)
Theorem slug_lists_are_alternatives store LocalTZA month genres venues
  L1 L2 E :
  L1 <> [] -> L2 <> [] ->
  forallb slug_ok L1 = true -> forallb slug_ok L2 = true ->
  (In E (body (GET store LocalTZA
                   (query month (Some (comma_separated (L1 ++ L2))) venues)))
   <-> In E (body (GET store LocalTZA
                       (query month (Some (comma_separated L1)) venues)))
       \/ In E (body (GET store LocalTZA
                          (query month (Some (comma_separated L2)) venues))))
  /\ (In E (body (GET store LocalTZA
                      (query month genres (Some (comma_separated (L1 ++ L2))))))
      <-> In E (body (GET store LocalTZA
                          (query month genres (Some (comma_separated L1)))))
          \/ In E (body (GET store LocalTZA
                             (query month genres (Some (comma_separated L2)))))).
Proof.
  intros H1 H2 Hok1 Hok2.
  assert (Hok : forallb slug_ok (L1 ++ L2) = true)
    by (rewrite forallb_app, Hok1, Hok2; reflexivity).
  assert (H12 : (L1 ++ L2)%list <> []) by (destruct L1; [contradiction | discriminate]).
  rewrite !body_GET_query, !filter_In.
  set (mm := month_matches LocalTZA month E).
  set (gg := genres_match (slugs_of genres) E).
  set (vv := venues_match (slugs_of venues) E).
  cbn [slugs_of]. rewrite !split_comma_separated by assumption.
  unfold genres_match, venues_match.
  rewrite !nonempty_length by assumption.
  split.
  - assert (Hsome :
      JS.some (fun genre => JS.includes (L1 ++ L2) (Genre.slug genre))
              (Event.genres E)
      = JS.some (fun genre => JS.includes L1 (Genre.slug genre))
                (Event.genres E)
        || JS.some (fun genre => JS.includes L2 (Genre.slug genre))
                   (Event.genres E)).
    { unfold JS.some. rewrite <- existsb_orb. apply existsb_pointwise.
      intros g. apply includes_app. }
    rewrite Hsome.
    destruct mm, vv,
      (JS.some (fun genre => JS.includes L1 (Genre.slug genre)) (Event.genres E)),
      (JS.some (fun genre => JS.includes L2 (Genre.slug genre)) (Event.genres E));
      simpl; intuition congruence.
  - rewrite includes_app.
    destruct mm, gg,
      (JS.includes L1 (Venue.slug (Event.venue E))),
      (JS.includes L2 (Venue.slug (Event.venue E)));
      simpl; intuition congruence.
Qed.

Lemma slug_lists_are_alternatives_witness :
  ["rock"] <> [] /\ ["jazz"] <> []
  /\ forallb slug_ok ["rock"] = true /\ forallb slug_ok ["jazz"] = true
  /\ (In Sample.event2
         (body (GET Sample.store Sample.CET
                    (query None (Some (comma_separated (["rock"] ++ ["jazz"])))
                           None)))
      <-> In Sample.event2
             (body (GET Sample.store Sample.CET
                        (query None (Some (comma_separated ["rock"])) None)))
          \/ In Sample.event2
                (body (GET Sample.store Sample.CET
                           (query None (Some (comma_separated ["jazz"])) None)))).
Proof.
  split; [discriminate |]. split; [discriminate |].
  split; [reflexivity |]. split; [reflexivity |].
  apply (proj1 (slug_lists_are_alternatives Sample.store Sample.CET None None
                  None ["rock"] ["jazz"] Sample.event2
                  ltac:(discriminate) ltac:(discriminate)
                  eq_refl eq_refl)).
Defined.

(** X6. A parameter only narrows: the result of a query is a
    subsequence of the result of the same query with the month, the
    genres or the venues left out. *)
Theorem leaving_out_a_parameter_widens store LocalTZA month genres venues :
  subsequence (body (GET store LocalTZA (query month genres venues)))
              (body (GET store LocalTZA (query None genres venues)))
  /\ subsequence (body (GET store LocalTZA (query month genres venues)))
                 (body (GET store LocalTZA (query month None venues)))
  /\ subsequence (body (GET store LocalTZA (query month genres venues)))
                 (body (GET store LocalTZA (query month genres None))).
Proof.
  rewrite !body_GET_query.
  repeat split; apply filter_weaken; intros e He;
    apply andb_prop in He as [He Hv]; apply andb_prop in He as [Hm Hg];
    rewrite ?Hm, ?Hg, ?Hv; reflexivity.
Qed.

(** X7. Queries compose: asking one query of the result of another
    gives the same list in either order, and asking a query of its own
    result changes nothing. *)
Theorem queries_commute_and_are_idempotent store LocalTZA request1 request2 :
  GET (body (GET store LocalTZA request1)) LocalTZA request2
  = GET (body (GET store LocalTZA request2)) LocalTZA request1
  /\ GET (body (GET store LocalTZA request1)) LocalTZA request1
     = GET store LocalTZA request1.
Proof.
  rewrite !GET_filter. cbn [body NextResponse_json].
  rewrite !filter_twice. split; f_equal; apply filter_ext; intros e.
  - apply andb_comm.
  - apply andb_diag.
Qed.

Module HomeFacts.
Import JS NumberFacts ParseFacts MonthFacts DateFacts.

(** The Number of a natural number below [2^53] is an integer, that
    number. *)
Lemma to_integer_of_Z k : 0 <= k < 2 ^ 53 -> to_integer (of_Z k) = Some k.
Proof.
  intros Hk. destruct (Z.eq_dec k 0) as [-> | Hnz]; [reflexivity |].
  rewrite of_Z_small by lia. unfold to_integer.
  assert (HL : Z.log2 k < 53) by (apply Z.log2_lt_pow2; lia).
  pose proof (Z.log2_nonneg k) as HL0.
  destruct (Z.leb_spec 0 (Z.log2 k - 52)) as [He | He].
  - replace (Z.log2 k) with 52 by lia. simpl (52 - 52). simpl (2 ^ 0).
    f_equal. lia.
  - replace (- (Z.log2 k - 52)) with (52 - Z.log2 k) by lia.
    pose proof (pow2_pos (52 - Z.log2 k) ltac:(lia)) as Hp.
    rewrite Z.mod_mul by lia. rewrite Z.eqb_refl.
    rewrite Z.div_mul by lia. reflexivity.
Qed.

Lemma DayFromYear_step y : DayFromYear (y + 1) = DayFromYear y + DaysInYear y.
Proof.
  unfold DayFromYear, DaysInYear.
  destruct (Z.eqb_spec (y mod 4) 0), (Z.eqb_spec (y mod 100) 0),
    (Z.eqb_spec (y mod 400) 0); cbn [negb];
    Z.div_mod_to_equations; lia.
Qed.

Lemma Day_within_year t :
  DayFromYear (YearFromTime t) <= Day t < DayFromYear (YearFromTime t + 1).
Proof.
  pose proof (YearFromTime_spec t) as [Hlo Hhi].
  unfold TimeFromYear, Day, msPerDay in *.
  split.
  - apply Z.div_le_lower_bound; lia.
  - apply Z.div_lt_upper_bound; lia.
Qed.

Lemma DayWithinYear_range t : 0 <= DayWithinYear t < 365 + InLeapYear t.
Proof.
  pose proof (Day_within_year t) as H.
  rewrite DayFromYear_step in H.
  unfold DayWithinYear, InLeapYear.
  assert (Hd : DaysInYear (YearFromTime t) = 365
               \/ DaysInYear (YearFromTime t) = 366).
  { unfold DaysInYear.
    repeat match goal with
           | |- context [if ?b then _ else _] => destruct b
           end; auto. }
  destruct Hd as [Hd | Hd]; rewrite Hd in *; simpl; lia.
Qed.

(** The day of the month is a day of a month. *)
Lemma DateFromTime_range t : 1 <= DateFromTime t <= 31.
Proof.
  pose proof (DayWithinYear_range t) as Hd.
  assert (Hl : InLeapYear t = 0 \/ InLeapYear t = 1)
    by (unfold InLeapYear; destruct (_ =? _); auto).
  unfold DateFromTime, MonthFromTime. cbv zeta.
  repeat match goal with
         | |- context [if ?a <? ?b then _ else _] =>
             destruct (Z.ltb_spec a b)
         end; cbv iota; lia.
Qed.

Lemma strict_eq_NaN_left x : strict_eq NaN x = false.
Proof. reflexivity. Qed.

End HomeFacts.

(** X8. The heading of the home page always names a month: the index
    into the twelve names is the local month of the instant of
    rendering, never out of range, so the name is never undefined. *)
Theorem home_heading_names_the_month store LocalTZA now :
  currentMonth (Home store LocalTZA now)
  = nth_error SWEDISH_MONTHS
      (Z.to_nat (JS.MonthFromTime (JS.LocalTime LocalTZA now)))
  /\ currentMonth (Home store LocalTZA now) <> None.
Proof.
  pose proof (ParseFacts.MonthFromTime_range (JS.LocalTime LocalTZA now)) as Hr.
  assert (Heq : currentMonth (Home store LocalTZA now)
                = nth_error SWEDISH_MONTHS
                    (Z.to_nat (JS.MonthFromTime (JS.LocalTime LocalTZA now)))).
  { cbn [Home currentMonth JS.getMonth]. unfold JS.index.
    rewrite HomeFacts.to_integer_of_Z
      by (change (2 ^ 53) with 9007199254740992; lia).
    destruct (Z.leb_spec 0 (JS.MonthFromTime (JS.LocalTime LocalTZA now)));
      [reflexivity | lia]. }
  split; [exact Heq |].
  rewrite Heq. apply nth_error_Some. simpl. lia.
Qed.

(** X9. The home page lists what the events API returns for the
    current month: for the well-formed token that names the local year
    and month of the instant of rendering, the events of the home page
    are the body of the query with [month] set to that token. *)
Theorem home_lists_the_month_query store LocalTZA now M :
  well_formed_month_token M = true ->
  calendar_month LocalTZA now = Some (token_year M, token_month M) ->
  currentMonthEvents store LocalTZA now
  = body (GET store LocalTZA (query (Some M) None None)).
Proof.
  intros HM Hnow.
  destruct (MonthFacts.well_formed_token M HM)
    as (Hne & Hy & Hm & HY & HMo).
  rewrite body_GET_query. unfold currentMonthEvents. cbv zeta.
  apply filter_ext. intros e.
  unfold month_matches. rewrite Hne, Hy, Hm.
  change (genres_match (slugs_of None) e) with true.
  change (venues_match (slugs_of None) e) with true.
  rewrite !andb_true_r.
  unfold in_month. cbv zeta. cbn [JS.ToNumber JS.strict_equals].
  rewrite (MonthFacts.sub_month _ HMo).
  unfold calendar_month in Hnow.
  destruct (Z.abs now <=? 8640000000000000); [| discriminate Hnow].
  inversion Hnow as [[Hyear Hmonth]].
  cbn [JS.getFullYear JS.getMonth].
  rewrite Hyear.
  replace (JS.MonthFromTime (JS.LocalTime LocalTZA now) + 1 - 1)
    with (JS.MonthFromTime (JS.LocalTime LocalTZA now)) by lia.
  apply andb_comm.
Qed.

Lemma home_lists_the_month_query_witness :
  well_formed_month_token "2025-11" = true
  /\ calendar_month Sample.CET 1762365600000
     = Some (token_year "2025-11", token_month "2025-11")
  /\ currentMonthEvents Sample.store Sample.CET 1762365600000
     = body (GET Sample.store Sample.CET (query (Some "2025-11") None None)).
Proof.
  split; [reflexivity |]. split; [reflexivity |].
  apply (home_lists_the_month_query Sample.store Sample.CET 1762365600000
           "2025-11"); reflexivity.
Defined.

(** X10. Every card of the home page shows a day of the month: the
    events listed have a valid start, and the day on a card is an
    integer from 1 to 31, never NaN. *)
Theorem home_cards_show_a_day store LocalTZA now card :
  In card (cards (Home store LocalTZA now)) ->
  exists d, card_day card = JS.of_Z d /\ 1 <= d <= 31.
Proof.
  cbn [Home cards]. intros H.
  apply in_map_iff in H as (e & <- & He).
  unfold currentMonthEvents in He. cbv zeta in He.
  apply filter_In in He as [_ He].
  apply andb_prop in He as [He _].
  cbn [card_of card_day].
  destruct (JS.new_Date (Event.startTime e)) as [t |].
  - exists (JS.DateFromTime (JS.LocalTime LocalTZA t)).
    split; [reflexivity | apply HomeFacts.DateFromTime_range].
  - cbn [JS.getMonth] in He. rewrite HomeFacts.strict_eq_NaN_left in He.
    discriminate He.
Qed.

Lemma home_cards_show_a_day_witness :
  In (card_of Sample.CET Sample.event1)
     (cards (Home Sample.store Sample.CET 1762365600000))
  /\ exists d, card_day (card_of Sample.CET Sample.event1) = JS.of_Z d
               /\ 1 <= d <= 31.
Proof.
  assert (Hin : In (card_of Sample.CET Sample.event1)
                   (cards (Home Sample.store Sample.CET 1762365600000))).
  { vm_compute. left. reflexivity. }
  split; [exact Hin |].
  exact (home_cards_show_a_day Sample.store Sample.CET 1762365600000
           (card_of Sample.CET Sample.event1) Hin).
Defined.

(** X11. The home page keeps the order of the store: the events it
    lists are a subsequence of the store, the cards follow them one to
    one, and the count it shows is the number of cards, at most the
    size of the store. *)
Theorem home_keeps_store_order store LocalTZA now :
  subsequence (currentMonthEvents store LocalTZA now) store
  /\ map card_key (cards (Home store LocalTZA now))
     = map Event.id (currentMonthEvents store LocalTZA now)
  /\ count (Home store LocalTZA now)
     = List.length (cards (Home store LocalTZA now))
  /\ (count (Home store LocalTZA now) <= List.length store)%nat.
Proof.
  assert (H : subsequence (currentMonthEvents store LocalTZA now) store)
    by apply filter_subsequence.
  split; [exact H |]. cbn [Home cards count].
  split; [rewrite map_map; reflexivity |].
  split; [rewrite length_map; reflexivity |].
  apply subsequence_length. exact H.
Qed.

Module CalendarFacts.
Import JS NumberFacts ParseFacts MonthFacts DateFacts HomeFacts.

(** An event that passes the month test has a start a Date can hold. *)
Lemma in_month_valid_start LocalTZA yearNum monthNum E :
  in_month LocalTZA yearNum monthNum E = true ->
  Z.abs (Event.startTime E) <= 8640000000000000.
Proof.
  unfold in_month, new_Date. cbv zeta. intros H.
  destruct (Z.leb_spec (Z.abs (Event.startTime E)) 8640000000000000);
    [assumption |].
  cbn [getFullYear] in H. rewrite TokenFacts.strict_equals_NaN in H.
  discriminate H.
Qed.

Lemma of_Z_opp z : of_Z (- z) = negate (of_Z z).
Proof.
  destruct (Z.eq_dec z 0) as [-> | Hz]; [reflexivity |].
  unfold of_Z, round_ratio, round_scaled. rewrite Z.abs_opp.
  set (N := Z.abs z * 2 ^ (- emin)).
  set (E := Z.max (Z.log2 (N / 1) - 52) 0).
  set (r := rne N (1 * 2 ^ E)).
  destruct (Z.ltb_spec (- z) 0), (Z.ltb_spec z 0); try lia;
    destruct (emax - emin <? (if r =? 2 ^ 53 then E + 1 else E));
    try reflexivity; cbn [negate].
  rewrite Z.opp_involutive. reflexivity.
Qed.

(** Distinct integers below [2^53] in size are distinct Numbers. *)
Lemma of_Z_inj a b : Z.abs b < 2 ^ 53 -> of_Z a = of_Z b -> a = b.
Proof.
  intros Hb H. destruct (Z_le_gt_dec 0 b) as [Hpos | Hneg].
  - apply of_Z_inj_small; [lia | exact H].
  - apply (f_equal negate) in H. rewrite <- !of_Z_opp in H.
    apply of_Z_inj_small in H; lia.
Qed.

Lemma strict_eq_common a b n :
  canonical_number n ->
  strict_eq (of_Z a) n = true -> strict_eq (of_Z b) n = true ->
  of_Z a = of_Z b.
Proof.
  intros Hn Ha Hb.
  pose proof (of_Z_canonical a) as Hca.
  pose proof (of_Z_canonical b) as Hcb.
  destruct (of_Z a) as [| sa | ma ea], (of_Z b) as [| sb | mb eb],
    n as [| sn | mn en]; try discriminate Ha; try discriminate Hb.
  - cbn [strict_eq] in Ha, Hb.
    apply Bool.eqb_prop in Ha, Hb. congruence.
  - destruct (strict_eq_canonical _ _ _ _ Hca Hn Ha) as [-> ->].
    destruct (strict_eq_canonical _ _ _ _ Hcb Hn Hb) as [-> ->].
    reflexivity.
Qed.

Lemma yearNum_canonical token :
  canonical_number (ToNumber (yearNum_of token)).
Proof.
  unfold yearNum_of, element.
  destruct (nth_error (map Number (split "-" token)) 0) as [n |] eqn:Hn;
    [| exact I].
  simpl. apply nth_error_In in Hn. apply in_map_iff in Hn as (s & <- & _).
  apply Number_canonical.
Qed.

(** The year of an instant a Date can hold, seen from a time zone at
    most a day off UTC, is small. *)
Lemma YearFromTime_bound t :
  Z.abs t <= 8640000000000000 + msPerDay -> Z.abs (YearFromTime t) < 2 ^ 53.
Proof.
  intros Ht. pose proof (Day_within_year t) as H.
  assert (Hd : -100000001 <= Day t <= 100000001).
  { unfold Day, msPerDay in *. Z.div_mod_to_equations. lia. }
  change (2 ^ 53) with 9007199254740992.
  unfold DayFromYear in H.
  Z.div_mod_to_equations. lia.
Qed.

End CalendarFacts.



Module DistinctFacts.

Lemma NoDup_map_filter {A B : Type} (f : A -> B) (p : A -> bool) l :
  NoDup (map f l) -> NoDup (map f (filter p l)).
Proof.
  induction l as [| x l IH]; simpl; intros H; [constructor |].
  inversion H as [| y k Hnotin Hrest]; subst.
  destruct (p x); [| apply IH; assumption].
  simpl. constructor; [| apply IH; assumption].
  intros Hin. apply Hnotin.
  apply in_map_iff in Hin as (z & Hz & Hzin).
  apply filter_In in Hzin as [Hzin _].
  rewrite <- Hz. apply in_map. assumption.
Qed.

Lemma NoDup_map_injective {A B : Type} (f : A -> B) l :
  (forall x y, f x = f y -> x = y) -> NoDup l -> NoDup (map f l).
Proof.
  intros Hf. induction 1 as [| x l Hnotin Hrest IH]; simpl; constructor;
    [| assumption].
  intros Hin. apply in_map_iff in Hin as (y & Hy & Hyin).
  apply Hf in Hy. subst y. contradiction.
Qed.

End DistinctFacts.

(** X13. The response repeats nothing the store does not: whatever
    tells the events of the store apart (their slugs, their ids) still
    tells the events of a response apart. *)
Theorem response_keeps_events_distinct (B : Type) (f : Event.t -> B)
  store LocalTZA request :
  NoDup (map f store) ->
  NoDup (map f (body (GET store LocalTZA request))).
Proof.
  intros H. rewrite GET_filter. cbn [body NextResponse_json].
  apply DistinctFacts.NoDup_map_filter. exact H.
Qed.

Lemma response_keeps_events_distinct_witness :
  NoDup (map Event.slug Sample.store)
  /\ NoDup (map Event.slug
              (body (GET Sample.store Sample.CET
                         (query None (Some "rock,jazz") None)))).
Proof.
  assert (Hnodup : NoDup (map Event.slug Sample.store)).
  { repeat constructor; simpl; intuition discriminate. }
  split; [exact Hnodup |].
  exact (response_keeps_events_distinct string Event.slug Sample.store
           Sample.CET (query None (Some "rock,jazz") None) Hnodup).
Defined.

(** X14. The cards of the home page can be told apart: when the ids
    of the events of the store are distinct so are the keys of the
    cards, and when the slugs are distinct so are the targets of the
    links. *)
Theorem home_cards_are_distinct store LocalTZA now :
  (NoDup (map Event.id store) ->
   NoDup (map card_key (cards (Home store LocalTZA now))))
  /\ (NoDup (map Event.slug store) ->
      NoDup (map card_href (cards (Home store LocalTZA now)))).
Proof.
  cbn [Home cards]. rewrite !map_map. cbn [card_of card_key card_href].
  split; intros H.
  - apply DistinctFacts.NoDup_map_filter. exact H.
  - rewrite <- (map_map Event.slug (fun s => "/event/" ++ s)).
    apply DistinctFacts.NoDup_map_injective.
    + intros x y Hxy. simpl in Hxy. inversion Hxy. reflexivity.
    + apply DistinctFacts.NoDup_map_filter. exact H.
Qed.

Lemma home_cards_are_distinct_witness :
  NoDup (map Event.id Sample.store)
  /\ NoDup (map card_key (cards (Home Sample.store Sample.CET 1762365600000))).
Proof.
  assert (Hnodup : NoDup (map Event.id Sample.store)).
  { repeat constructor; simpl; intuition discriminate. }
  split; [exact Hnodup |].
  exact (proj1 (home_cards_are_distinct Sample.store Sample.CET 1762365600000)
           Hnodup).
Defined.
